(** * Bookshelf scanner: a shallow embedding of [server.js]

    The development follows the server file top to bottom:

    - [JS]       the string primitives the server relies on
                 ([toLowerCase], [replace] with a character class, [trim],
                 [split(/\s+/)], [startsWith], [includes], [join], [length]);
    - [Tiling]   the grid arithmetic of [tileImage];
    - [Dedup]    [normalizeTitle] and [deduplicateBooks];
    - [Resolver] [authorsMatch], [isSummaryKnockoff], [docToResult],
                 [lookupOneBook] and the [/api/lookup] handler.

    A JavaScript string is the [string] of its UTF-8 bytes.  ASCII text is
    modelled exactly.  Of the other characters, [toLowerCase] leaves the
    bytes alone and the classes [a-z], [0-9] and [\s] hold none; this is
    what the server computes unless the text has white space outside ASCII
    or one of the two letters whose lower case is an ASCII letter (U+0130,
    U+212A).  [length] counts UTF-16 code units. *)

From Stdlib Require Import ZArith String Ascii Bool Lia.
From stdpp Require Import base option list strings pretty.

Local Open Scope Z_scope.

(** ** JavaScript string primitives *)
Module JS.

Definition code (c : ascii) : N := N_of_ascii c.

Definition in_range (lo hi : N) (c : ascii) : bool :=
  ((lo <=? code c) && (code c <=? hi))%N.

Definition is_upper : ascii → bool := in_range 65 90.
Definition is_lower : ascii → bool := in_range 97 122.
Definition is_digit : ascii → bool := in_range 48 57.

(** The class [\s] (on ASCII): tab, line feed, vertical tab, form feed,
    carriage return, space. *)
Definition is_space (c : ascii) : bool :=
  in_range 9 13 c || (code c =? 32)%N.

Definition lower_char (c : ascii) : ascii :=
  if is_upper c then ascii_of_N (code c + 32) else c.

Fixpoint smap (f : ascii → ascii) (s : string) : string :=
  match s with
  | EmptyString => EmptyString
  | String c s' => String (f c) (smap f s')
  end.

(** [keep p s] is [s.replace(/[^...]/g, "")] where [p] recognises the
    characters of the class that is kept. *)
Fixpoint keep (p : ascii → bool) (s : string) : string :=
  match s with
  | EmptyString => EmptyString
  | String c s' => if p c then String c (keep p s') else keep p s'
  end.

Definition toLowerCase : string → string := smap lower_char.

Fixpoint trimStart (s : string) : string :=
  match s with
  | String c s' => if is_space c then trimStart s' else s
  | EmptyString => EmptyString
  end.

Definition trim (s : string) : string :=
  String.rev (trimStart (String.rev (trimStart s))).

(** [s.startsWith(p)] *)
Definition startsWith (s p : string) : bool := String.prefix p s.

(** [s.includes(t)]: [t] occurs in [s] as a contiguous substring. *)
Fixpoint includes (s t : string) : bool :=
  if String.prefix t s then true
  else match s with
       | EmptyString => false
       | String _ s' => includes s' t
       end.

(** [s.split(/\s+/)]: the pieces between maximal runs of white space; a
    run at either end leaves an empty piece there, and the empty string
    splits into one empty piece. *)
Fixpoint split_go (cur : string) (in_run : bool) (s : string) : list string :=
  match s with
  | EmptyString => [String.rev cur]
  | String c s' =>
      if is_space c then
        if in_run then split_go cur true s'
        else String.rev cur :: split_go EmptyString true s'
      else split_go (String c cur) false s'
  end.

Definition split_ws (s : string) : list string := split_go EmptyString false s.

(** [s.split(/[...]/)[0]] for a class of single characters: the prefix of
    [s] before the first separator. *)
Fixpoint before_sep (sep : string → bool) (s : string) : string :=
  if sep s then EmptyString
  else match s with
       | EmptyString => EmptyString
       | String c s' => String c (before_sep sep s')
       end.

(** [xs.join(sep)] *)
Fixpoint join (sep : string) (xs : list string) : string :=
  match xs with
  | [] => EmptyString
  | [x] => x
  | x :: rest => x +:+ sep +:+ join sep rest
  end.

(** The UTF-16 code units a byte of UTF-8 text accounts for: one for an
    ASCII byte and for the first byte of a longer sequence, one more for the
    first byte of a four-byte sequence, none for a continuation byte. *)
Definition units (c : ascii) : nat :=
  if (code c <? 128)%N then 1
  else if (code c <? 192)%N then 0
  else if (code c <? 240)%N then 1
  else 2.

(** [s.length] *)
Fixpoint len (s : string) : nat :=
  match s with
  | EmptyString => 0
  | String c s' => units c + len s'
  end.

(** A template literal prints a missing value as [undefined]. *)
Definition template (o : option string) : string := default "undefined" o.

(** [o || ""] for a string that may be missing. *)
Definition or_empty (o : option string) : string := default "" o.

(** Truthiness of a string that may be missing. *)
Definition truthy (o : option string) : bool :=
  match o with
  | Some (String _ _) => true
  | _ => false
  end.

(** Significant words: [.split(/\s+/).filter(w => w.length > 2)]. *)
Definition long_words (s : string) : list string :=
  filter (λ w, (2 < len w)%nat) (split_ws s).

End JS.

(** ** Records exchanged between the stages *)

(** A detection as the vision pass returns it, and as the resolver receives
    it.  Any field may be missing from the parsed JSON. *)
Record Book := {
  title : option string;
  author : option string;
  confidence : option string;
  corrected : option bool;
}.

(** ** Image tiling ([tileImage]) *)
Module Tiling.

(** The result of the counting pass. *)
Record Overview := { count : Z; shelves : Z; notes : string }.

Record Region := {
  left : Z;
  top : Z;
  width : Z;
  height : Z;
  label : string;
}.

(** [Math.round(n / d)] for integers [0 ≤ n] and [0 < d]: the quotient
    rounded to the nearest integer, halves upwards.  For [d ≤ 4] the
    double [n / d] is a tie exactly when the rational is. *)
Definition round_div (n d : Z) : Z := (2 * n + d) / (2 * d).

(** [Math.round(cell * 0.15)].  The double nearest to 0.15 is smaller than
    3/20 by less than 2^-57, so the product is a tie exactly when
    [3 * cell / 20] is one (the tie is then a double, and the product rounds
    to it), and is otherwise 1/20 or more away from a tie. *)
Definition round_overlap (cell : Z) : Z := (3 * cell + 10) / 20.

(** [x || d] on numbers. *)
Definition or_num (x d : Z) : Z := if x =? 0 then d else x.

Definition grid_cols (bookCount w : Z) : Z :=
  if (40 <=? bookCount) || (3000 <=? w) then 4
  else if (20 <=? bookCount) || (2000 <=? w) then 3
  else 2.

Definition grid_rows (shelves h : Z) : Z :=
  if (4 <=? shelves) || (3000 <=? h) then 4
  else if (2 <=? shelves) || (1600 <=? h) then Z.max shelves 2
  else 1.

Definition cellW (w cols : Z) : Z := round_div w cols.
Definition cellH (h rows : Z) : Z := round_div h rows.

(** The body of the two nested loops. *)
Definition region (w h cols rows row col : Z) : Region :=
  let padL := if 0 <? col then round_overlap (cellW w cols) else 0 in
  let padR := if col <? cols - 1 then round_overlap (cellW w cols) else 0 in
  let padT := if 0 <? row then round_overlap (cellH h rows) else 0 in
  let padB := if row <? rows - 1 then round_overlap (cellH h rows) else 0 in
  let left := Z.max 0 (col * cellW w cols - padL) in
  let top := Z.max 0 (row * cellH h rows - padT) in
  let right := Z.min w ((col + 1) * cellW w cols + padR) in
  let bottom := Z.min h ((row + 1) * cellH h rows + padB) in
  {| left := left;
     top := top;
     width := right - left;
     height := bottom - top;
     label := "row" +:+ pretty (row + 1) +:+ "-col" +:+ pretty (col + 1) |}.

(** Rows outermost, columns innermost, in the order of [regions.push]. *)
Definition grid (w h cols rows : Z) : list Region :=
  row ← seqZ 0 rows; col ← seqZ 0 cols; [region w h cols rows row col].

Definition bookCount (overview : option Overview) : Z :=
  or_num (from_option count 0 overview) 0.

Definition shelfCount (overview : option Overview) : Z :=
  or_num (from_option shelves 0 overview) 1.

(** The rectangles handed to the classifier for a [w] by [h] image.  A
    small image is sent whole: one region, the full frame. *)
Definition tileImage (w h : Z) (overview : option Overview) : list Region :=
  if (w <? 1200) && (h <? 1200) then
    [{| left := 0; top := 0; width := w; height := h; label := "full image" |}]
  else
    grid w h (grid_cols (bookCount overview) w)
             (grid_rows (shelfCount overview) h).

(** Pixel [(x, y)] lies in the rectangle. *)
Definition contains (r : Region) (x y : Z) : bool :=
  (left r <=? x) && (x <? left r + width r) &&
  (top r <=? y) && (y <? top r + height r).

Definition covered (rs : list Region) (x y : Z) : bool :=
  existsb (λ r, contains r x y) rs.

(** Width of the strip two regions of one row share, and height of the
    strip two regions of one column share. *)
Definition overlap_x (a b : Region) : Z := left a + width a - left b.
Definition overlap_y (a b : Region) : Z := top a + height a - top b.

End Tiling.

(** ** Deduplication ([normalizeTitle], [deduplicateBooks]) *)
Module Dedup.

Definition is_alnum (c : ascii) : bool := JS.is_lower c || JS.is_digit c.

Definition normalizeTitle (t : option string) : string :=
  JS.trim (JS.keep is_alnum (JS.toLowerCase (JS.or_empty t))).

(** What [confRank[c] || 0] evaluates to: a number, or, when [c] names a
    member that the table literal inherits from [Object.prototype], that
    member, kept here as the string the comparison converts it to. *)
Inductive RankVal :=
| RNum (n : Z)
| RObj (prim : string).

Definition native (name : string) : string :=
  "function " +:+ name +:+ "() { [native code] }".

Definition inherited : list (string * string) :=
  [ ("constructor", native "Object");
    ("__proto__", "[object Object]");
    ("hasOwnProperty", native "hasOwnProperty");
    ("isPrototypeOf", native "isPrototypeOf");
    ("propertyIsEnumerable", native "propertyIsEnumerable");
    ("toLocaleString", native "toLocaleString");
    ("toString", native "toString");
    ("valueOf", native "valueOf");
    ("__defineGetter__", native "__defineGetter__");
    ("__defineSetter__", native "__defineSetter__");
    ("__lookupGetter__", native "__lookupGetter__");
    ("__lookupSetter__", native "__lookupSetter__") ].

Fixpoint assoc {A} (k : string) (l : list (string * A)) : option A :=
  match l with
  | [] => None
  | (k', v) :: l' => if decide (k' = k) then Some v else assoc k l'
  end.

(** [confRank[c]]: own entries first, then the prototype; [None] is
    [undefined]. *)
Definition confRank (c : option string) : option RankVal :=
  match c with
  | None => None
  | Some s =>
      match assoc s [("high", 3); ("medium", 2); ("low", 1)] with
      | Some n => Some (RNum n)
      | None => RObj <$> assoc s inherited
      end
  end.

(** [confRank[c] || 0] *)
Definition rank (c : option string) : RankVal := default (RNum 0) (confRank c).

(** [a > b]: numbers by value, two objects by their strings, and a number
    against an object is a comparison with [NaN]. *)
Definition gt (a b : RankVal) : bool :=
  match a, b with
  | RNum x, RNum y => y <? x
  | RObj s, RObj t => String.ltb t s
  | _, _ => false
  end.

(** A [Map] keeps its keys in insertion order; [set] on a key already
    present replaces the value in place. *)
Abbreviation BookMap := (list (string * Book)).

Fixpoint map_set (m : BookMap) (k : string) (v : Book) : BookMap :=
  match m with
  | [] => [(k, v)]
  | (k', v') :: m' =>
      if decide (k' = k) then (k, v) :: m' else (k', v') :: map_set m' k v
  end.

Definition map_get (m : BookMap) (k : string) : option Book := assoc k m.

Definition map_values (m : BookMap) : list Book := m.*2.

(** One iteration of the loop over [allBooks]. *)
Definition step (m : BookMap) (book : Book) : BookMap :=
  let key := normalizeTitle (title book) in
  if decide (key = "") then m
  else
    match map_get m key with
    | None => map_set m key book
    | Some existing =>
        if gt (rank (confidence book)) (rank (confidence existing))
        then map_set m key book
        else m
    end.

Definition deduplicateBooks (allBooks : list Book) : list Book :=
  map_values (foldl step [] allBooks).

(** The dedup key of a detection. *)
Definition key (b : Book) : string := normalizeTitle (title b).

(** An entry of the map filed under its own, non-empty key. *)
Definition filed (kv : string * Book) : Prop := key kv.2 = kv.1 ∧ kv.1 ≠ "".

(** The confidence of [b] has a numeric rank: it is missing, or any string
    but the twelve names of [inherited]. *)
Definition numeric (b : Book) : bool :=
  match rank (confidence b) with RNum _ => true | RObj _ => false end.

Definition rankNum (b : Book) : Z :=
  match rank (confidence b) with RNum n => n | RObj _ => 0 end.

(** [v] occurs in [xs], outranks every earlier detection with its key and
    is not outranked by a later one: the first of maximal rank. *)
Definition first_best (xs : list Book) (v : Book) : Prop :=
  ∃ l1 l2, xs = l1 ++ v :: l2
    ∧ (∀ b, b ∈ l1 → key b = key v → rankNum b < rankNum v)
    ∧ (∀ b, b ∈ l2 → key b = key v → rankNum b ≤ rankNum v).

(** What the map holds after the loop has run over [xs]. *)
Definition Inv (xs : list Book) (m : BookMap) : Prop :=
  NoDup m.*1
  ∧ Forall filed m
  ∧ (∀ k, k ∈ m.*1 ↔ k ≠ "" ∧ ∃ b, b ∈ xs ∧ key b = k)
  ∧ (forallb numeric xs = true → ∀ k v, map_get m k = Some v → first_best xs v).

End Dedup.

(** ** Catalogue lookup ([/api/lookup]) *)
Module Resolver.

(** A document of the search service; every field may be missing. *)
Record Doc := {
  doc_title : option string;
  author_name : option (list string);
  isbn : option (list string);
  cover_i : option Z;
  first_publish_year : option Z;
  publisher : option (list string);
  number_of_pages_median : option Z;
  subject : option (list string);
}.

(** Values of the fields of a returned object. *)
Inductive jsval :=
| Undefined
| Null
| Bool (b : bool)
| Num (n : Z)
| Str (s : string).

Definition of_string (o : option string) : jsval :=
  match o with Some s => Str s | None => Undefined end.

Definition of_bool (o : option bool) : jsval :=
  match o with Some b => Bool b | None => Undefined end.

(** The object sent back for one book: the ten fields of [docToResult], or
    the spread of the input book; a field the object lacks is [Undefined]. *)
Record Result := {
  r_title : jsval;
  r_author : jsval;
  r_confidence : jsval;
  r_corrected : jsval;
  r_isbn13 : jsval;
  r_isbn10 : jsval;
  r_coverUrl : jsval;
  r_publishYear : jsval;
  r_publisher : jsval;
  r_pages : jsval;
  r_subjects : jsval;
  r_matched : jsval;
}.

(** *** [authorsMatch] *)

Definition is_alpha_space (c : ascii) : bool := JS.is_lower c || JS.is_space c.

Definition norm (s : string) : string :=
  JS.trim (JS.keep is_alpha_space (JS.toLowerCase s)).

Definition nameWords (s : string) : list string := JS.long_words (norm s).

(** [candWords.some(cw => cw.includes(ew) || ew.includes(cw))] *)
Definition word_hit (candWords : list string) (ew : string) : bool :=
  existsb (λ cw, JS.includes cw ew || JS.includes ew cw) candWords.

Definition matchCount (expWords candWords : list string) : nat :=
  length (List.filter (word_hit candWords) expWords).

(** [Math.ceil(n / 2)] *)
Definition ceil_half (n : nat) : nat := ((n + 1) / 2)%nat.

Definition authorsMatch (expected : option string) (candidate : string) : bool :=
  match expected with
  | None => true
  | Some e =>
      if bool_decide (e = "") || bool_decide (e = "Unknown")
         || bool_decide (candidate = "")
      then true
      else
        let expWords := nameWords e in
        let candWords := nameWords candidate in
        if bool_decide (length expWords = 0%nat) then true
        else if bool_decide (last expWords = last candWords) then true
        else (ceil_half (length expWords) <=? matchCount expWords candWords)%nat
  end.

(** *** [isSummaryKnockoff] *)

Definition isSummaryKnockoff (resultTitle queryTitle : option string) : bool :=
  let rt := JS.toLowerCase (JS.or_empty resultTitle) in
  let qt := JS.toLowerCase (JS.or_empty queryTitle) in
  if negb (JS.startsWith qt "summary") && JS.startsWith rt "summary" then true
  else if negb (JS.startsWith qt "review") && JS.startsWith rt "review" then true
  else if negb (JS.startsWith qt "analysis") && JS.startsWith rt "analysis of" then true
  else false.

(** *** [docToResult] *)

Definition nonzero (o : option Z) : option Z :=
  match o with
  | Some n => if n =? 0 then None else Some n
  | None => None
  end.

Definition has_length (n : nat) (s : string) : bool := (JS.len s =? n)%nat.

Definition docToResult (doc : Doc) (originalBook : Book) : Result :=
  let isbns := default [] (isbn doc) in
  let authors := JS.join ", " (default [] (author_name doc)) in
  {| r_title := if JS.truthy (doc_title doc) then of_string (doc_title doc)
                else of_string (title originalBook);
     r_author := if bool_decide (authors = "") then of_string (author originalBook)
                 else Str authors;
     r_confidence := Undefined;
     r_corrected := Undefined;
     r_isbn13 := Str (default "" (List.find (has_length 13) isbns));
     r_isbn10 := Str (default "" (List.find (has_length 10) isbns));
     r_coverUrl :=
       match nonzero (cover_i doc) with
       | Some coverId =>
           Str ("https://covers.openlibrary.org/b/id/" +:+ pretty coverId +:+ "-M.jpg")
       | None => Null
       end;
     r_publishYear := from_option Num (Str "") (nonzero (first_publish_year doc));
     r_publisher := Str (default "" (head (default [] (publisher doc))));
     r_pages := from_option Num (Str "") (nonzero (number_of_pages_median doc));
     r_subjects := Str (JS.join ", " (take 3 (default [] (subject doc))));
     r_matched := Bool true |}.

(** [{ ...book, matched: false }] *)
Definition unmatched (book : Book) : Result :=
  {| r_title := of_string (title book);
     r_author := of_string (author book);
     r_confidence := of_string (confidence book);
     r_corrected := of_bool (corrected book);
     r_isbn13 := Undefined;
     r_isbn10 := Undefined;
     r_coverUrl := Undefined;
     r_publishYear := Undefined;
     r_publisher := Undefined;
     r_pages := Undefined;
     r_subjects := Undefined;
     r_matched := Bool false |}.

(** *** The strategy cascade ([lookupOneBook]) *)

(** What calling [strategy.query()] gives: [None] when the call throws
    ([split] on a missing title), else the value, which is [undefined] or a
    string. *)
Record Strategy := {
  query : option (option string);
  useAuthorFilter : bool;
  titleField : bool;
}.

Definition em_dash : string :=
  String (ascii_of_N 226) (String (ascii_of_N 128) (String (ascii_of_N 148) "")).
Definition en_dash : string :=
  String (ascii_of_N 226) (String (ascii_of_N 128) (String (ascii_of_N 147) "")).

(** The class [[:—\-–]] at the head of a string. *)
Definition subtitle_sep (s : string) : bool :=
  String.prefix ":" s || String.prefix em_dash s
  || String.prefix "-" s || String.prefix en_dash s.

(** [t.split(/[:—\-–]/)[0].trim()] *)
Definition withoutSubtitle (t : string) : string :=
  JS.trim (JS.before_sep subtitle_sep t).

Definition titleAndAuthor (book : Book) : string :=
  JS.trim (JS.template (title book) +:+ " " +:+
           (if bool_decide (author book = Some "Unknown") then ""
            else JS.template (author book))).

Definition strategies (book : Book) : list Strategy :=
  [ {| query := Some (Some (titleAndAuthor book));
       useAuthorFilter := true; titleField := false |};
    {| query := Some (title book);
       useAuthorFilter := true; titleField := false |};
    {| query := Some (title book);
       useAuthorFilter := true; titleField := true |};
    {| query := (λ t, Some (withoutSubtitle t)) <$> title book;
       useAuthorFilter := true; titleField := false |};
    {| query := Some (title book);
       useAuthorFilter := false; titleField := true |};
    {| query := (λ t, Some (withoutSubtitle t)) <$> title book;
       useAuthorFilter := false; titleField := false |} ].

Definition is_alnum_space (c : ascii) : bool :=
  JS.is_lower c || JS.is_digit c || JS.is_space c.

(** [normQ] and [normT] *)
Definition titleWords (s : string) : list string :=
  JS.long_words (JS.keep is_alnum_space (JS.toLowerCase s)).

Definition titleOverlap (q : string) (docTitle : option string) : bool :=
  existsb (λ qw,
    existsb (λ tw, JS.includes tw qw || JS.includes qw tw)
            (titleWords (JS.or_empty docTitle)))
    (titleWords q).

(** The three tests of the inner loop; [true] when [doc] reaches the
    [return]. *)
Definition passes (book : Book) (st : Strategy) (q : string) (doc : Doc) : bool :=
  if isSummaryKnockoff (doc_title doc) (title book) then false
  else if useAuthorFilter st
          && negb (authorsMatch (author book)
                     (JS.join ", " (default [] (author_name doc))))
  then false
  else if negb (titleOverlap q (doc_title doc))
          && (0 <? length (titleWords q))%nat
  then false
  else true.

(** The search service: the documents answered to a general ([false]) or
    title-scoped ([true]) query.  A failed request answers [[]]. *)
Definition SearchService := bool → string → list Doc.

Inductive Attempt :=
| Accept (doc : Doc)
| NoMatch
| Throw.

(** One turn of the outer loop. *)
Definition tryStrategy (search : SearchService) (book : Book) (st : Strategy)
  : Attempt :=
  match query st with
  | None => Throw
  | Some None => NoMatch
  | Some (Some q) =>
      if (JS.len q <? 2)%nat then NoMatch
      else match List.find (passes book st q) (search (titleField st) q) with
           | Some doc => Accept doc
           | None => NoMatch
           end
  end.

(** The outer loop from strategy number [i] on.  The service may answer
    each request differently, so it is indexed by the number of the
    strategy that asks.  [None] is the rejected promise. *)
Fixpoint cascade (searches : nat → SearchService) (book : Book) (i : nat)
    (sts : list Strategy) : option Result :=
  match sts with
  | [] => Some (unmatched book)
  | st :: rest =>
      match tryStrategy (searches i) book st with
      | Accept doc => Some (docToResult doc book)
      | NoMatch => cascade searches book (S i) rest
      | Throw => None
      end
  end.

Definition lookupOneBook (searches : nat → SearchService) (book : Book)
  : option Result :=
  cascade searches book 0 (strategies book).

(** *** The handler *)

Inductive Response :=
| Json (results : list Result)
| ServerError.

(** [Promise.all]: all the values in order, or the rejection. *)
Definition promise_all {A} (ps : list (option A)) : option (list A) := mapM id ps.

(** [service i] answers the requests made for the book at index [i]. *)
Definition api_lookup (service : nat → nat → SearchService) (books : list Book)
  : Response :=
  match promise_all (imap (λ i book, lookupOneBook (service i) book) books) with
  | Some results => Json results
  | None => ServerError
  end.

End Resolver.

(** ** Statements about the characters of a string *)
Module Text.

(** Every character of [s] satisfies [p]. *)
Fixpoint every (p : ascii → bool) (s : string) : bool :=
  match s with
  | EmptyString => true
  | String c s' => p c && every p s'
  end.

End Text.

(** ** Model replies ([parseGptJson], [verifyAndCleanBooks]) and the scan
    pipeline from pass 2 on *)
Module Gpt.

Definition newline : string := String (ascii_of_N 10) "".
Definition fence : string := "```".

(** [s] without the prefix [p], when it has it. *)
Fixpoint strip_prefix (p s : string) : option string :=
  match p with
  | EmptyString => Some s
  | String a p' =>
      match s with
      | String b s' => if decide (a = b) then strip_prefix p' s' else None
      | EmptyString => None
      end
  end.

(** [s] without the suffix [p], when it has it. *)
Definition strip_suffix (p s : string) : option string :=
  String.rev <$> strip_prefix (String.rev p) (String.rev s).

(** An optional piece of a pattern at the head of [s]. *)
Definition skip (p s : string) : string := default s (strip_prefix p s).

(** [text.replace(/^```(?:json)?\n?/, "")] *)
Definition strip_open (text : string) : string :=
  match strip_prefix fence text with
  | Some rest => skip newline (skip "json" rest)
  | None => text
  end.

(** [text.replace(/\n?```$/, "")]: the leftmost match is the one with the
    line feed, when there is one. *)
Definition strip_close (text : string) : string :=
  match strip_suffix (newline +:+ fence) text with
  | Some rest => rest
  | None => default text (strip_suffix fence text)
  end.

(** The text handed to [JSON.parse]. *)
Definition payload (raw : string) : string :=
  let text := JS.trim raw in
  if JS.startsWith text fence then strip_close (strip_open text) else text.





End Gpt.

(** ** The browser side ([public/app.js]): escaping and the CSV export *)
Module Client.

Definition dquote : ascii := ascii_of_N 34.

(** [s.replace(/Q/g, r)] where [Q] is the double quote. *)
Fixpoint replace_quotes (r : string) (s : string) : string :=
  match s with
  | EmptyString => EmptyString
  | String c s' =>
      if decide (c = dquote) then r +:+ replace_quotes r s'
      else String c (replace_quotes r s')
  end.

(** [esc] *)
Definition esc (s : option string) : string :=
  replace_quotes "&quot;" (JS.or_empty s).

(** The replacement for a quote inside a cell: two quotes. *)
Definition doubled : string := String dquote (String dquote "").

(** One cell of the export: quoted, inner quotes doubled. *)
Definition csv_cell (cell : string) : string :=
  String dquote (replace_quotes doubled cell +:+ String dquote "").

(** A character other than the double quote. *)
Definition not_quote (c : ascii) : bool := negb (bool_decide (c = dquote)).

Definition csv_row (row : list string) : string :=
  JS.join "," (csv_cell <$> row).

(** [[header, ...rows].map(...).join("\n")] *)
Definition csv_text (table : list (list string)) : string :=
  JS.join Gpt.newline (csv_row <$> table).

(** [String(v)] for the values the export meets. *)
Definition to_string (v : Resolver.jsval) : string :=
  match v with
  | Resolver.Undefined => "undefined"
  | Resolver.Null => "null"
  | Resolver.Bool b => if b then "true" else "false"
  | Resolver.Num n => pretty n
  | Resolver.Str s => s
  end.

Definition truthy (v : Resolver.jsval) : bool :=
  match v with
  | Resolver.Undefined | Resolver.Null => false
  | Resolver.Bool b => b
  | Resolver.Num n => negb (n =? 0)
  | Resolver.Str s => negb (bool_decide (s = ""))
  end.

(** [String(v || "")], which is also [v ? String(v) : ""]. *)
Definition or_blank (v : Resolver.jsval) : string :=
  if truthy v then to_string v else "".

(** An ISBN as a formula, [="..."], so that a spreadsheet keeps it as
    text. *)
Definition as_formula (v : Resolver.jsval) : string :=
  if truthy v
  then "=" +:+ String dquote (to_string v +:+ String dquote "")
  else "".

Definition header : list string :=
  [ "title"; "creators"; "ean_isbn13"; "upc_isbn10";
    "description"; "tags"; "group"; "status";
    "began"; "completed"; "rating"; "review"; "price"; "length" ].

Definition export_row (b : Resolver.Result) : list string :=
  [ or_blank (Resolver.r_title b);
    or_blank (Resolver.r_author b);
    as_formula (Resolver.r_isbn13 b);
    as_formula (Resolver.r_isbn10 b);
    "";
    or_blank (Resolver.r_subjects b);
    ""; ""; ""; ""; ""; ""; "";
    or_blank (Resolver.r_pages b) ].

(** [csvContent], the text behind the byte order mark. *)
Definition csvContent (enrichedBooks : list Resolver.Result) : string :=
  csv_text (header :: (export_row <$> enrichedBooks)).

End Client.

(** * Properties *)

(** ** The definitions on concrete inputs *)

Example split_ws_inner : JS.split_ws "ab  cd" = ["ab"; "cd"].
Proof. reflexivity. Qed.

Example split_ws_ends : JS.split_ws " a " = [""; "a"; ""].
Proof. reflexivity. Qed.

Example split_ws_empty : JS.split_ws "" = [""].
Proof. reflexivity. Qed.

Example trim_both_ends : JS.trim "  Dune  " = "Dune".
Proof. reflexivity. Qed.

Example includes_inner : JS.includes "stephenson" "hens" = true.
Proof. reflexivity. Qed.

Example len_dash : JS.len ("a" +:+ Resolver.em_dash) = 2%nat.
Proof. reflexivity. Qed.

Example normalizeTitle_punctuation :
  Dedup.normalizeTitle (Some "The Hobbit, or There & Back Again!")
  = "thehobbitortherebackagain".
Proof. reflexivity. Qed.

Example nameWords_initials : Resolver.nameWords "J. K. Rowling" = ["rowling"].
Proof. reflexivity. Qed.

Example withoutSubtitle_colon :
  Resolver.withoutSubtitle "Dune: Messiah - a novel" = "Dune".
Proof. reflexivity. Qed.

Example withoutSubtitle_dash :
  Resolver.withoutSubtitle ("Sapiens " +:+ Resolver.em_dash +:+ " A Brief History")
  = "Sapiens".
Proof. reflexivity. Qed.

Example titleAndAuthor_unknown :
  Resolver.titleAndAuthor {| title := Some "Dune"; author := Some "Unknown";
                             confidence := None; corrected := None |} = "Dune".
Proof. reflexivity. Qed.

(** The small-image path: one region, the whole frame. *)
Example tileImage_small :
  Tiling.tileImage 800 600 None
  = [{| Tiling.left := 0; Tiling.top := 0; Tiling.width := 800;
        Tiling.height := 600; Tiling.label := "full image" |}].
Proof. reflexivity. Qed.

Example tileImage_labels :
  Tiling.label <$> Tiling.tileImage 2400 1600 None
  = ["row1-col1"; "row1-col2"; "row1-col3";
     "row2-col1"; "row2-col2"; "row2-col3"].
Proof. reflexivity. Qed.

(** The end-to-end scenario: two regions report the same book. *)
Example dedup_dune :
  Dedup.deduplicateBooks
    [ {| title := Some "Dune"; author := Some "Frank Herbert";
         confidence := Some "high"; corrected := None |};
      {| title := Some "dune"; author := Some "F. Herbert";
         confidence := Some "low"; corrected := None |} ]
  = [ {| title := Some "Dune"; author := Some "Frank Herbert";
         confidence := Some "high"; corrected := None |} ].
Proof. reflexivity. Qed.

(** A replaced entry keeps the place of its key in the map. *)
Example dedup_order :
  title <$> Dedup.deduplicateBooks
    [ {| title := Some "Dune"; author := None;
         confidence := Some "low"; corrected := None |};
      {| title := Some "Emma"; author := None;
         confidence := Some "high"; corrected := None |};
      {| title := Some "?!"; author := None;
         confidence := Some "high"; corrected := None |};
      {| title := Some "DUNE"; author := None;
         confidence := Some "medium"; corrected := None |} ]
  = [Some "DUNE"; Some "Emma"].
Proof. reflexivity. Qed.

(** ** Deduplication *)
Section DedupFacts.
Import Dedup.

Lemma assoc_None {A} (k : string) (m : list (string * A)) :
  assoc k m = None ↔ k ∉ m.*1.
Proof.
  induction m as [|[k' v] m IH]; simpl.
  - split; [intros _; apply not_elem_of_nil | done].
  - rewrite not_elem_of_cons. destruct (decide (k' = k)) as [->|Hne].
    + split; [done | intros [? _]; done].
    + rewrite IH. split; [intros ?; split; [by intros -> | done] | by intros [_ ?]].
Qed.

Lemma assoc_Some_elem {A} (k : string) (v : A) (m : list (string * A)) :
  assoc k m = Some v → (k, v) ∈ m.
Proof.
  induction m as [|[k' v'] m IH]; simpl; [done|].
  case_decide; subst.
  - intros [= ->]. apply list_elem_of_here.
  - intros ?. apply list_elem_of_further. auto.
Qed.

Lemma map_set_fresh (m : BookMap) k v :
  map_get m k = None → map_set m k v = m ++ [(k, v)].
Proof.
  unfold map_get. induction m as [|[k' v'] m IH]; simpl; [done|].
  case_decide; [done|]. intros ?. f_equal. by apply IH.
Qed.

Lemma map_set_keys (m : BookMap) k v e :
  map_get m k = Some e → (map_set m k v).*1 = m.*1.
Proof.
  unfold map_get. induction m as [|[k' v'] m IH]; simpl; [done|].
  case_decide; subst; simpl; [done|]. intros ?. f_equal. by apply IH.
Qed.

Lemma map_set_elem (m : BookMap) k v kv :
  kv ∈ map_set m k v → kv ∈ m ∨ kv = (k, v).
Proof.
  induction m as [|[k' v'] m IH]; simpl.
  - intros ?%list_elem_of_singleton. by right.
  - destruct (decide (k' = k)) as [->|Hne]; rewrite !elem_of_cons.
    + intros [->|?]; [by right | left; by right].
    + intros [->|Hin]; [left; by left|].
      destruct (IH Hin) as [?| ->]; [left; by right | by right].
Qed.

Lemma get_set_eq (m : BookMap) k v : map_get (map_set m k v) k = Some v.
Proof.
  unfold map_get. induction m as [|[k' v'] m IH]; simpl.
  - by rewrite decide_True.
  - case_decide; subst; simpl.
    + by rewrite decide_True.
    + by rewrite decide_False.
Qed.

Lemma get_set_ne (m : BookMap) k k' v :
  k ≠ k' → map_get (map_set m k v) k' = map_get m k'.
Proof.
  intros Hne. unfold map_get. induction m as [|[k0 v0] m IH]; simpl.
  - by rewrite decide_False.
  - destruct (decide (k0 = k)) as [->|]; simpl.
    + by rewrite !decide_False.
    + case_decide; [done | apply IH].
Qed.

(** The three ways an iteration can go. *)
Lemma step_cases (m : BookMap) (b : Book) :
  (key b = "" ∧ step m b = m)
  ∨ (key b ≠ "" ∧ map_get m (key b) = None ∧ step m b = m ++ [(key b, b)])
  ∨ (key b ≠ "" ∧ ∃ e, map_get m (key b) = Some e ∧
       ((gt (rank (confidence b)) (rank (confidence e)) = true
         ∧ step m b = map_set m (key b) b)
        ∨ (gt (rank (confidence b)) (rank (confidence e)) = false
           ∧ step m b = m))).
Proof.
  unfold step. fold (key b). case_decide; [by left | right].
  destruct (map_get m (key b)) as [e|] eqn:Hget.
  - right. split; [done|]. exists e. split; [done|].
    destruct (gt _ _); [left | right]; done.
  - left. by rewrite map_set_fresh.
Qed.

Lemma step_filed (m : BookMap) (b : Book) :
  NoDup m.*1 → Forall filed m → NoDup (step m b).*1 ∧ Forall filed (step m b).
Proof.
  intros Hnd Hf.
  destruct (step_cases m b)
    as [[_ ->]|[(Hk & Hget & ->)|(Hk & e & Hget & [[_ ->]|[_ ->]])]]; try done.
  - split.
    + rewrite fmap_app. apply NoDup_app. split; [done|]. split.
      * intros k Hin ->%list_elem_of_singleton. by apply assoc_None in Hget.
      * apply NoDup_singleton.
    + apply Forall_app. split; [done|]. by apply Forall_singleton.
  - split.
    + by erewrite map_set_keys.
    + apply Forall_forall. intros kv [Hin| ->]%map_set_elem.
      * by eapply Forall_forall in Hf.
      * done.
Qed.

Lemma foldl_step_filed (xs : list Book) (m : BookMap) :
  NoDup m.*1 → Forall filed m →
  NoDup (foldl step m xs).*1 ∧ Forall filed (foldl step m xs).
Proof.
  revert m. induction xs as [|b xs IH]; intros m Hnd Hf; simpl; [done|].
  destruct (step_filed m b Hnd Hf). by apply IH.
Qed.

(** Feeding the values of a well-filed map back through the loop rebuilds
    the map entry by entry. *)
Lemma replay (m acc : BookMap) :
  NoDup (acc ++ m).*1 → Forall filed m →
  foldl step acc (map_values m) = acc ++ m.
Proof.
  revert acc. induction m as [|[k v] m IH]; intros acc Hnd Hf; simpl.
  - by rewrite app_nil_r.
  - apply Forall_cons in Hf as [[Hkey Hne] Hf]. simpl in *.
    assert (map_get acc k = None) as Hget.
    { apply assoc_None. rewrite fmap_app in Hnd.
      apply NoDup_app in Hnd as (_ & Hdisj & _).
      intros Hin. apply (Hdisj k Hin). simpl. apply list_elem_of_here. }
    destruct (step_cases acc v) as [[? _]|[(_ & _ & ->)|(_ & e & He & _)]].
    + unfold key in *. congruence.
    + rewrite Hkey. unfold map_values in IH. rewrite IH.
      * by rewrite <-app_assoc.
      * by rewrite <-app_assoc.
      * done.
    + rewrite Hkey in He. congruence.
Qed.

Lemma gt_numeric (a b : Book) :
  numeric a = true → numeric b = true →
  gt (rank (confidence a)) (rank (confidence b)) = (rankNum b <? rankNum a).
Proof.
  unfold numeric, rankNum.
  by destruct (rank (confidence a)), (rank (confidence b)).
Qed.

Lemma first_best_snoc (xs : list Book) (v b : Book) :
  first_best xs v → (key b = key v → rankNum b ≤ rankNum v) →
  first_best (xs ++ [b]) v.
Proof.
  intros (l1 & l2 & -> & Hl1 & Hl2) Hb.
  exists l1, (l2 ++ [b]). split; [by rewrite <-app_assoc|]. split; [done|].
  intros x [Hin| ->%list_elem_of_singleton]%elem_of_app; auto.
Qed.

Lemma first_best_last (xs : list Book) (b : Book) :
  (∀ x, x ∈ xs → key x = key b → rankNum x < rankNum b) →
  first_best (xs ++ [b]) b.
Proof.
  intros Hxs. exists xs, []. split; [done|]. split; [done|].
  intros x Hin. by apply elem_of_nil in Hin.
Qed.

Lemma first_best_bound (xs : list Book) (e x : Book) :
  first_best xs e → x ∈ xs → key x = key e → rankNum x ≤ rankNum e.
Proof.
  intros (l1 & l2 & -> & Hl1 & Hl2) Hin Hk.
  apply elem_of_app in Hin as [Hin|Hin].
  - specialize (Hl1 x Hin Hk). lia.
  - apply elem_of_cons in Hin as [->|Hin]; [lia | auto].
Qed.


Lemma step_Inv (xs : list Book) (m : BookMap) (b : Book) :
  Inv xs m → Inv (xs ++ [b]) (step m b).
Proof.
  intros (Hnd & Hf & Hkeys & Hbest).
  destruct (step_filed m b Hnd Hf) as [Hnd' Hf'].
  split; [done|]. split; [done|].
  assert (∀ k, (k ≠ "" ∧ ∃ x, x ∈ xs ++ [b] ∧ key x = k)
             ↔ k ∈ m.*1 ∨ (k = key b ∧ key b ≠ "")) as Hsnoc.
  { intros k. rewrite Hkeys. split.
    - intros (Hk & x & [Hin| ->%list_elem_of_singleton]%elem_of_app & <-).
      + left. eauto.
      + by right.
    - intros [(Hk & x & Hin & <-)|[-> Hk]].
      + split; [done|]. exists x. split; [|done]. apply elem_of_app. by left.
      + split; [done|]. exists b. split; [|done]. apply elem_of_app. right.
        apply list_elem_of_here. }
  assert (∀ e, map_get m (key b) = Some e → key b ∈ m.*1) as Hin_keys.
  { intros e He%assoc_Some_elem. apply list_elem_of_fmap. by exists (key b, e). }
  assert (∀ k v, map_get m k = Some v → key v = k) as Hfiled.
  { intros k v Hget%assoc_Some_elem.
    by destruct (proj1 (Forall_forall _ _) Hf _ Hget). }
  destruct (step_cases m b)
    as [[Hk Hst]|[(Hk & Hget & Hst)|(Hk & e & Hget & [[Hgt Hst]|[Hgt Hst]])]].
  - (* no usable title *)
    rewrite Hst. split.
    + intros k. rewrite Hsnoc. split; [by left|].
      intros [?|[-> ?]]; [done | congruence].
    + rewrite forallb_app. intros [Hnum _]%andb_prop k v Hv.
      apply first_best_snoc; [by eapply Hbest|].
      intros Hkv. apply Hfiled in Hv as Hv'. apply assoc_Some_elem in Hv.
      destruct (proj1 (Forall_forall _ _) Hf _ Hv) as [_ Hne]. simpl in *.
      congruence.
  - (* a new key *)
    rewrite Hst. split.
    + intros k. rewrite Hsnoc, fmap_app, elem_of_app. simpl.
      rewrite list_elem_of_singleton. split.
      * intros [?| ->]; [by left | by right].
      * intros [?|[-> _]]; [by left | by right].
    + rewrite forallb_app. intros [Hnum _]%andb_prop k v.
      rewrite <-map_set_fresh by done.
      destruct (decide (key b = k)) as [<-|Hne].
      * rewrite get_set_eq. intros [= <-]. apply first_best_last.
        intros x Hx Hkx. apply assoc_None in Hget. destruct Hget.
        apply Hkeys. split; [done|]. by exists x.
      * rewrite get_set_ne by done. intros Hv.
        apply first_best_snoc; [by eapply Hbest|].
        intros Hkv. apply Hfiled in Hv. congruence.
  - (* a better copy of a known key *)
    rewrite Hst. split.
    + intros k. erewrite map_set_keys by done. rewrite Hsnoc.
      split; [by left|]. intros [?|[-> _]]; [done | eauto].
    + rewrite forallb_app. simpl. rewrite andb_true_r.
      intros [Hnum Hnb]%andb_prop k v.
      assert (first_best xs e) as He by (by eapply Hbest).
      assert (numeric e = true) as Hne.
      { destruct He as (l1 & l2 & -> & _). rewrite forallb_app in Hnum.
        apply andb_prop in Hnum as [_ Hnum]. simpl in Hnum.
        by apply andb_prop in Hnum as [? _]. }
      rewrite gt_numeric in Hgt by done. apply Z.ltb_lt in Hgt.
      destruct (decide (key b = k)) as [<-|Hnk].
      * rewrite get_set_eq. intros [= <-]. apply first_best_last.
        intros x Hx Hkx. apply Hfiled in Hget.
        assert (rankNum x ≤ rankNum e); [|lia].
        eapply first_best_bound; [done..|congruence].
      * rewrite get_set_ne by done. intros Hv.
        apply first_best_snoc; [by eapply Hbest|].
        intros Hkv. apply Hfiled in Hv. congruence.
  - (* a copy that is no better *)
    rewrite Hst. split.
    + intros k. rewrite Hsnoc.
      split; [by left|]. intros [?|[-> _]]; [done | eauto].
    + rewrite forallb_app. simpl. rewrite andb_true_r.
      intros [Hnum Hnb]%andb_prop k v Hv.
      assert (first_best xs e) as He by (by eapply Hbest).
      assert (numeric e = true) as Hne.
      { destruct He as (l1 & l2 & -> & _). rewrite forallb_app in Hnum.
        apply andb_prop in Hnum as [_ Hnum]. simpl in Hnum.
        by apply andb_prop in Hnum as [? _]. }
      rewrite gt_numeric in Hgt by done. apply Z.ltb_ge in Hgt.
      apply first_best_snoc; [by eapply Hbest|].
      intros Hkv. apply Hfiled in Hv as Hv'.
      assert (v = e) as -> by congruence. done.
Qed.

Lemma foldl_Inv (xs : list Book) : Inv xs (foldl step [] xs).
Proof.
  induction xs as [|b xs IH] using rev_ind.
  - split; [apply NoDup_nil_2|]. split; [done|]. split.
    + intros k. simpl. split.
      * intros Hin. by apply elem_of_nil in Hin.
      * intros (_ & b & Hin & _). by apply elem_of_nil in Hin.
    + done.
  - rewrite foldl_app. simpl. by apply step_Inv.
Qed.


Lemma filed_keys (m : BookMap) : Forall filed m → key <$> map_values m = m.*1.
Proof.
  unfold map_values. induction 1 as [|[k v] m [Hk _] _ IH]; [done|].
  rewrite !fmap_cons. cbn [fst snd] in *. by rewrite Hk, IH.
Qed.





(** A confidence that is missing, or is neither a key of the rank table nor
    a name the table inherits, ranks 0. *)
Lemma rank_default (c : option string) :
  (∀ s, c = Some s →
     s ≠ "high" ∧ s ≠ "medium" ∧ s ≠ "low" ∧ assoc s inherited = None) →
  rank c = RNum 0.
Proof.
  destruct c as [s|]; [|done]. intros H.
  destruct (H s eq_refl) as (? & ? & ? & Hinh).
  unfold rank, confRank. cbn [assoc].
  rewrite !decide_False by done. by rewrite Hinh.
Qed.

Lemma rank_range (c : option string) (n : Z) : rank c = RNum n → 0 ≤ n ≤ 3.
Proof.
  unfold rank, confRank. destruct c as [s|]; [|intros [= <-]; lia].
  cbn [assoc]. repeat case_decide; try (intros [= <-]; lia).
  destruct (assoc s inherited); [done | intros [= <-]; lia].
Qed.

(** Away from the inherited names the rank 0 behaves as the lowest rank: a
    detection of rank 0 leaves a kept entry of numeric rank in place, and a
    detection of confidence high, medium or low takes the place of a kept
    entry of rank 0. *)
Lemma rank_zero_step (m : BookMap) (b e : Book) :
  key b ≠ "" → map_get m (key b) = Some e →
  (rank (confidence b) = RNum 0 → numeric e = true → step m b = m)
  ∧ (rank (confidence e) = RNum 0 →
     confidence b = Some "high" ∨ confidence b = Some "medium"
     ∨ confidence b = Some "low" →
     step m b = map_set m (key b) b).
Proof.
  intros Hk Hget. unfold step. fold (key b).
  rewrite decide_False, Hget by done. split.
  - intros Hb He. rewrite Hb. unfold numeric in He.
    destruct (rank (confidence e)) as [n|] eqn:Hn; [|done].
    apply rank_range in Hn. simpl.
    by rewrite (proj2 (Z.ltb_ge n 0)) by lia.
  - intros He [Hb|[Hb|Hb]]; by rewrite He, Hb.
Qed.

End DedupFacts.

(** C9 — [deduplicateBooks] is idempotent: running it on its own output
    gives that output back. *)
Theorem deduplicateBooks_idempotent (xs : list Book) :
  Dedup.deduplicateBooks (Dedup.deduplicateBooks xs) = Dedup.deduplicateBooks xs.
Proof.
  unfold Dedup.deduplicateBooks.
  destruct (foldl_step_filed xs []) as [Hnd Hf]; [apply NoDup_nil_2 | done |].
  by rewrite (replay _ []).
Qed.



(** C10 — at the failing input: a kept detection whose confidence is
    [constructor] is not ranked 0 and is not replaced by a later duplicate of
    confidence [high]; and a later duplicate of confidence [toString]
    replaces a kept one of confidence [constructor]. *)
Theorem inherited_confidence_outlives_high :
  let odd := {| title := Some "Dune"; author := Some "Frank Herbert";
                confidence := Some "constructor"; corrected := None |} in
  let good := {| title := Some "dune"; author := Some "F. Herbert";
                 confidence := Some "high"; corrected := None |} in
  let odder := {| title := Some "DUNE"; author := Some "Herbert";
                  confidence := Some "toString"; corrected := None |} in
  Dedup.rank (confidence odd) ≠ Dedup.RNum 0
  ∧ Dedup.deduplicateBooks [odd; good] = [odd]
  ∧ Dedup.deduplicateBooks [odd; odder] = [odder].
Proof. intros odd good odder. split; [discriminate|]. split; reflexivity. Qed.

(** ** Tiling *)
Section TilingFacts.
Import Tiling.

Lemma round_overlap_nonneg (c : Z) : 0 ≤ c → 0 ≤ round_overlap c.
Proof. intros ?. unfold round_overlap. apply Z.div_pos; lia. Qed.

Lemma round_div_nonneg (n d : Z) : 0 ≤ n → 0 < d → 0 ≤ round_div n d.
Proof. intros ??. unfold round_div. apply Z.div_pos; lia. Qed.

Lemma grid_cols_cases (n w : Z) :
  grid_cols n w = 2 ∨ grid_cols n w = 3 ∨ grid_cols n w = 4.
Proof. unfold grid_cols. repeat case_match; auto. Qed.

Lemma grid_rows_cases (s h : Z) :
  grid_rows s h = 1 ∨ grid_rows s h = 2 ∨ grid_rows s h = 3 ∨ grid_rows s h = 4.
Proof.
  unfold grid_rows.
  destruct (4 <=? s) eqn:H4; simpl; [auto|].
  destruct (3000 <=? h); simpl; [auto|].
  destruct (_ || _); [|auto]. lia.
Qed.

Lemma elem_of_grid (w h cols rows : Z) (r : Region) :
  r ∈ grid w h cols rows ↔
  ∃ row col, 0 ≤ row < rows ∧ 0 ≤ col < cols ∧ r = region w h cols rows row col.
Proof.
  unfold grid. rewrite list_elem_of_bind. split.
  - intros (row & (col & ->%list_elem_of_singleton & Hcol%elem_of_seqZ)%list_elem_of_bind
            & Hrow%elem_of_seqZ).
    exists row, col. repeat split; lia.
  - intros (row & col & Hrow & Hcol & ->). exists row. split.
    + apply list_elem_of_bind. exists col. split; [apply list_elem_of_here|].
      apply elem_of_seqZ. lia.
    + apply elem_of_seqZ. lia.
Qed.

Lemma region_bounds (w h cols rows row col : Z) :
  let r := region w h cols rows row col in
  0 ≤ left r ∧ 0 ≤ top r ∧ left r + width r ≤ w ∧ top r + height r ≤ h.
Proof. simpl. lia. Qed.

Lemma covered_true (rs : list Region) (x y : Z) :
  covered rs x y = true ↔ ∃ r, r ∈ rs ∧ contains r x y = true.
Proof.
  unfold covered. rewrite existsb_exists.
  split; intros (r & ? & ?); exists r; split; try done; by apply list_elem_of_In.
Qed.

(** The cell that holds a coordinate below the extent of the grid. *)
Lemma cell_of (x cell n : Z) :
  0 ≤ x < n * cell → 0 < n →
  0 < cell ∧ 0 ≤ x / cell < n ∧ x / cell * cell ≤ x < (x / cell + 1) * cell.
Proof.
  intros Hx Hn. assert (0 < cell) by nia. split; [done|].
  pose proof (Z.div_mod x cell ltac:(lia)).
  pose proof (Z.mod_pos_bound x cell ltac:(lia)).
  assert (0 ≤ x / cell) by (apply Z.div_pos; lia).
  assert (x / cell < n) by (apply Z.div_lt_upper_bound; lia).
  nia.
Qed.

(** The grid covers the image up to [cols] cells across and [rows] cells
    down; a rounded cell that is too short leaves the rest uncovered. *)
Lemma grid_covers (w h cols rows x y : Z) :
  0 < cols → 0 < rows →
  0 ≤ x < Z.min w (cols * cellW w cols) →
  0 ≤ y < Z.min h (rows * cellH h rows) →
  covered (grid w h cols rows) x y = true.
Proof.
  intros Hc Hr Hx Hy.
  destruct (cell_of x (cellW w cols) cols) as (HW & Hcol & Hxc); [lia | done |].
  destruct (cell_of y (cellH h rows) rows) as (HH & Hrow & Hyc); [lia | done |].
  apply covered_true.
  exists (region w h cols rows (y / cellH h rows) (x / cellW w cols)). split.
  - apply elem_of_grid. eauto.
  - pose proof (round_overlap_nonneg (cellW w cols) ltac:(lia)).
    pose proof (round_overlap_nonneg (cellH h rows) ltac:(lia)).
    unfold contains, region. cbn [left top width height].
    repeat (apply andb_true_intro; split);
      first [apply Z.leb_le | apply Z.ltb_lt]; repeat case_match; lia.
Qed.

(** Every pixel of a small image is covered, and so is every pixel of a
    tiled image that lies within the extent of the rounded grid. *)
Lemma tileImage_covers (w h : Z) (ov : option Overview) (x y : Z) :
  let cols := grid_cols (bookCount ov) w in
  let rows := grid_rows (shelfCount ov) h in
  0 ≤ x < w → 0 ≤ y < h →
  (w < 1200 ∧ h < 1200)
  ∨ (x < cols * cellW w cols ∧ y < rows * cellH h rows) →
  covered (tileImage w h ov) x y = true.
Proof.
  intros cols rows Hx Hy Hcase. unfold tileImage.
  destruct ((w <? 1200) && (h <? 1200)) eqn:Hsmall.
  - unfold covered, contains. simpl.
    rewrite orb_false_r. repeat (apply andb_true_intro; split);
      first [apply Z.leb_le | apply Z.ltb_lt]; lia.
  - destruct Hcase as [[Hw Hh]|[Hxc Hyc]].
    + apply andb_false_iff in Hsmall as [?%Z.ltb_ge|?%Z.ltb_ge]; lia.
    + pose proof (grid_cols_cases (bookCount ov) w).
      pose proof (grid_rows_cases (shelfCount ov) h).
      apply grid_covers; fold cols rows; lia.
Qed.

Lemma pad_fits (w cols c : Z) :
  3 ≤ w → cols = 2 ∨ cols = 3 ∨ cols = 4 → 0 ≤ c → c + 1 < cols →
  0 ≤ (c + 1) * cellW w cols - round_overlap (cellW w cols)
  ∧ (c + 1) * cellW w cols + round_overlap (cellW w cols) ≤ w.
Proof.
  intros Hw Hcols Hc Hlt. unfold cellW, round_div, round_overlap.
  destruct Hcols as [->|[->| ->]];
    assert (c = 0 ∨ c = 1 ∨ c = 2) as [->|[->| ->]] by lia; try lia;
    Z.div_mod_to_equations; lia.
Qed.

Lemma pad_fits_rows (h rows r : Z) :
  3 ≤ h → rows = 1 ∨ rows = 2 ∨ rows = 3 ∨ rows = 4 → 0 ≤ r → r + 1 < rows →
  0 ≤ (r + 1) * cellH h rows - round_overlap (cellH h rows)
  ∧ (r + 1) * cellH h rows + round_overlap (cellH h rows) ≤ h.
Proof.
  intros Hh [->|Hrows] Hr Hlt; [lia|]. by apply pad_fits.
Qed.

End TilingFacts.

(** C2 — at the failing input: in a 2002 by 1500 image with no overview the
    three columns are 667 pixels wide and end at 2001, so that pixel
    (2001, 0), inside the image, lies in no region. *)
Theorem last_column_gap :
  Tiling.grid_cols (Tiling.bookCount None) 2002 = 3
  ∧ Tiling.cellW 2002 3 = 667
  ∧ 0 ≤ 2001 < 2002 ∧ 0 ≤ 0 < 1500
  ∧ Tiling.covered (Tiling.tileImage 2002 1500 None) 2001 0 = false.
Proof. repeat split; try lia; reflexivity. Qed.

(** C3, as stated, fails: in a 2400 by 1600 image the cells are 800 by 800,
    15% of a cell side is 120, and the first two regions of the top row
    share a strip 240 wide. *)
Lemma overlap_is_not_15_percent :
  ¬ (∀ (w h : Z) (ov : option Tiling.Overview) (a b : Tiling.Region),
       1200 ≤ w ∨ 1200 ≤ h →
       Tiling.tileImage w h ov !! 0%nat = Some a →
       Tiling.tileImage w h ov !! 1%nat = Some b →
       Tiling.overlap_x a b =
       Tiling.round_overlap
         (Z.min (Tiling.cellW w (Tiling.grid_cols (Tiling.bookCount ov) w))
                (Tiling.cellH h (Tiling.grid_rows (Tiling.shelfCount ov) h)))).
Proof.
  intros H.
  specialize (H 2400 1600 None _ _ ltac:(lia) eq_refl eq_refl).
  vm_compute in H. discriminate H.
Qed.

(** C3, amended — no region of a partition extends past the image; in a
    tiled partition of an image at least 3 pixels wide and high, a region
    and its right-hand neighbour share a strip twice [round_overlap] of the
    cell width wide, a region and the one below it a strip twice
    [round_overlap] of the cell height high: each cell is widened by 15% of
    its own side across an interior grid line. *)
Theorem tiles_bounds_and_overlap (w h : Z) (ov : option Tiling.Overview)
    (row col : Z) :
  3 ≤ w → 3 ≤ h → 1200 ≤ w ∨ 1200 ≤ h →
  let cols := Tiling.grid_cols (Tiling.bookCount ov) w in
  let rows := Tiling.grid_rows (Tiling.shelfCount ov) h in
  let tile := Tiling.region w h cols rows in
  0 ≤ row < rows → 0 ≤ col < cols →
  (∀ r, r ∈ Tiling.tileImage w h ov →
        0 ≤ Tiling.left r ∧ 0 ≤ Tiling.top r
        ∧ Tiling.left r + Tiling.width r ≤ w
        ∧ Tiling.top r + Tiling.height r ≤ h)
  ∧ tile row col ∈ Tiling.tileImage w h ov
  ∧ (col + 1 < cols →
       tile row (col + 1) ∈ Tiling.tileImage w h ov
       ∧ Tiling.overlap_x (tile row col) (tile row (col + 1))
         = 2 * Tiling.round_overlap (Tiling.cellW w cols))
  ∧ (row + 1 < rows →
       tile (row + 1) col ∈ Tiling.tileImage w h ov
       ∧ Tiling.overlap_y (tile row col) (tile (row + 1) col)
         = 2 * Tiling.round_overlap (Tiling.cellH h rows)).
Proof.
  intros Hw Hh Hbig cols rows tile Hrow Hcol.
  assert (Tiling.tileImage w h ov = Tiling.grid w h cols rows) as ->.
  { unfold Tiling.tileImage.
    destruct (w <? 1200) eqn:E1, (h <? 1200) eqn:E2; try done. lia. }
  pose proof (grid_cols_cases (Tiling.bookCount ov) w) as Hcols.
  pose proof (grid_rows_cases (Tiling.shelfCount ov) h) as Hrows.
  fold cols in Hcols. fold rows in Hrows.
  split; [|split; [|split]].
  - intros r (row' & col' & _ & _ & ->)%elem_of_grid. apply region_bounds.
  - apply elem_of_grid. by exists row, col.
  - intros Hnext. split.
    + apply elem_of_grid. exists row, (col + 1). repeat split; lia.
    + destruct (pad_fits w cols col) as [Hlo Hhi]; [lia..|].
      unfold tile, Tiling.overlap_x, Tiling.region.
      cbn [Tiling.left Tiling.width].
      repeat case_match; lia.
  - intros Hnext. split.
    + apply elem_of_grid. exists (row + 1), col. repeat split; lia.
    + destruct (pad_fits_rows h rows row) as [Hlo Hhi]; [lia..|].
      unfold tile, Tiling.overlap_y, Tiling.region.
      cbn [Tiling.top Tiling.height].
      repeat case_match; lia.
Qed.

Lemma tiles_bounds_and_overlap_witness :
  let a := Tiling.region 2400 1600 3 2 0 0 in
  a ∈ Tiling.tileImage 2400 1600 None
  ∧ Tiling.overlap_x a (Tiling.region 2400 1600 3 2 0 1) = 2 * 120
  ∧ Tiling.overlap_y a (Tiling.region 2400 1600 3 2 1 0) = 2 * 120.
Proof.
  intros a.
  destruct (tiles_bounds_and_overlap 2400 1600 None 0 0)
    as (_ & Ha & Hx & Hy); [lia | lia | lia | vm_compute; split; congruence
                            | vm_compute; split; congruence |].
  split; [exact Ha|]. split.
  - apply Hx. reflexivity.
  - apply Hy. reflexivity.
Defined.

(** ** Catalogue lookup *)
Section ResolverFacts.
Import Resolver.


Lemma passes_true (book : Book) (st : Strategy) (q : string) (doc : Doc) :
  passes book st q doc = true ↔
  isSummaryKnockoff (doc_title doc) (title book) = false
  ∧ (useAuthorFilter st = true →
       authorsMatch (author book)
         (JS.join ", " (default [] (author_name doc))) = true)
  ∧ (titleWords q = [] ∨ titleOverlap q (doc_title doc) = true).
Proof.
  unfold passes.
  destruct (isSummaryKnockoff _ _); [intuition congruence|].
  destruct (useAuthorFilter st), (authorsMatch _ _),
    (titleOverlap _ _), (titleWords q) as [|w ws];
    simpl; intuition congruence.
Qed.

Lemma tryStrategy_accept (search : SearchService) (book : Book)
    (st : Strategy) (doc : Doc) :
  tryStrategy search book st = Accept doc →
  ∃ q, query st = Some (Some q)
       ∧ doc ∈ search (titleField st) q
       ∧ passes book st q doc = true.
Proof.
  unfold tryStrategy. destruct (query st) as [[q|]|]; try done.
  destruct (JS.len q <? 2)%nat; [done|].
  destruct (List.find _ _) as [d|] eqn:Hfind; [|done].
  intros [= ->]. apply find_some in Hfind as [Hin Hp].
  exists q. split; [done|]. split; [by apply list_elem_of_In | done].
Qed.

Lemma docToResult_matched (doc : Doc) (book : Book) :
  r_matched (docToResult doc book) = Bool true.
Proof. done. Qed.

Lemma cascade_accept (searches : nat → SearchService) (book : Book)
    (sts : list Strategy) (i : nat) (r : Result) :
  cascade searches book i sts = Some r → r_matched r = Bool true →
  ∃ j st doc, sts !! j = Some st
    ∧ tryStrategy (searches (i + j)%nat) book st = Accept doc
    ∧ r = docToResult doc book.
Proof.
  revert i. induction sts as [|st sts IH]; intros i; simpl.
  - intros [= <-]. done.
  - destruct (tryStrategy (searches i) book st) as [doc| |] eqn:Htry; [| |done].
    + intros [= <-] _. exists 0%nat, st, doc. by rewrite Nat.add_0_r.
    + intros Hc Hm. destruct (IH _ Hc Hm) as (j & st' & doc & Hj & Ht & ->).
      exists (S j), st', doc. split; [done|]. split; [|done].
      by replace (i + S j)%nat with (S i + j)%nat by lia.
Qed.

Lemma cascade_exhausted (searches : nat → SearchService) (book : Book)
    (sts : list Strategy) (i : nat) :
  (∀ j st, sts !! j = Some st →
           tryStrategy (searches (i + j)%nat) book st = NoMatch) →
  cascade searches book i sts = Some (unmatched book).
Proof.
  revert i. induction sts as [|st sts IH]; intros i Hall; simpl; [done|].
  pose proof (Hall 0%nat st eq_refl) as H0. rewrite Nat.add_0_r in H0.
  rewrite H0. apply IH. intros j st' Hj.
  replace (S i + j)%nat with (i + S j)%nat by lia. by apply Hall.
Qed.

Lemma tryStrategy_no_throw (search : SearchService) (book : Book)
    (st : Strategy) :
  is_Some (query st) → tryStrategy search book st ≠ Throw.
Proof.
  intros [q Hq]. unfold tryStrategy. rewrite Hq.
  destruct q as [q|]; [|done].
  destruct (JS.len q <? 2)%nat; [done|]. by destruct (List.find _ _).
Qed.

Lemma cascade_returns (searches : nat → SearchService) (book : Book)
    (sts : list Strategy) (i : nat) :
  Forall (λ st, is_Some (query st)) sts →
  is_Some (cascade searches book i sts).
Proof.
  intros Hq. revert i. induction Hq as [|st sts Hst _ IH]; intros i; simpl.
  - by eexists.
  - pose proof (tryStrategy_no_throw (searches i) book st Hst).
    destruct (tryStrategy _ _ _); [by eexists | apply IH | done].
Qed.

Lemma lookupOneBook_returns (searches : nat → SearchService) (book : Book) :
  is_Some (title book) → is_Some (lookupOneBook searches book).
Proof.
  intros [t Ht]. apply cascade_returns. unfold strategies. rewrite Ht.
  repeat constructor; by eexists.
Qed.

End ResolverFacts.

(** C7 — [isSummaryKnockoff] rejects a candidate exactly when its title,
    lowercased, starts with "summary", "review" or "analysis of" and the
    query title, lowercased, does not start with that word ("summary",
    "review", "analysis"); "Summary of Dune" is rejected for the query
    "Dune" and accepted for the query "Summary of Dune". *)
Theorem isSummaryKnockoff_exact (resultTitle queryTitle : option string) :
  let rt := JS.toLowerCase (JS.or_empty resultTitle) in
  let qt := JS.toLowerCase (JS.or_empty queryTitle) in
  (Resolver.isSummaryKnockoff resultTitle queryTitle = true ↔
     (JS.startsWith rt "summary" = true ∧ JS.startsWith qt "summary" = false)
     ∨ (JS.startsWith rt "review" = true ∧ JS.startsWith qt "review" = false)
     ∨ (JS.startsWith rt "analysis of" = true
        ∧ JS.startsWith qt "analysis" = false))
  ∧ Resolver.isSummaryKnockoff (Some "Summary of Dune") (Some "Dune") = true
  ∧ Resolver.isSummaryKnockoff (Some "Summary of Dune")
      (Some "Summary of Dune") = false.
Proof.
  intros rt qt. split; [|split; reflexivity].
  unfold Resolver.isSummaryKnockoff. fold rt qt.
  destruct (JS.startsWith qt "summary"), (JS.startsWith rt "summary"),
    (JS.startsWith qt "review"), (JS.startsWith rt "review"),
    (JS.startsWith qt "analysis"), (JS.startsWith rt "analysis of");
    simpl; intuition congruence.
Qed.



(** C8, as stated, fails: for the book "It" by Stephen King and a service
    that answers every request with "Carrie" by Stephen King, the second
    strategy (query "It") accepts "Carrie", whose title shares no word with
    the query, and [lookupOneBook] returns it. *)
Lemma accepted_without_title_overlap :
  ¬ (∀ (searches : nat → Resolver.SearchService) (book : Book)
       (i : nat) (st : Resolver.Strategy) (q : string) (doc : Resolver.Doc),
       Resolver.strategies book !! i = Some st →
       Resolver.query st = Some (Some q) →
       Resolver.tryStrategy (searches i) book st = Resolver.Accept doc →
       Resolver.lookupOneBook searches book
       = Some (Resolver.docToResult doc book) →
       Resolver.titleOverlap q (Resolver.doc_title doc) = true).
Proof.
  intros H.
  pose (book := {| title := Some "It"; author := Some "Stephen King";
                   confidence := Some "high"; corrected := None |}).
  pose (carrie := {| Resolver.doc_title := Some "Carrie";
                     Resolver.author_name := Some ["Stephen King"];
                     Resolver.isbn := None; Resolver.cover_i := None;
                     Resolver.first_publish_year := None;
                     Resolver.publisher := None;
                     Resolver.number_of_pages_median := None;
                     Resolver.subject := None |}).
  specialize (H (λ _ _ _, [carrie]) book 1%nat _ "It" carrie eq_refl eq_refl
                eq_refl eq_refl).
  vm_compute in H. discriminate H.
Qed.

(** C8, amended — a result that [lookupOneBook] returns as matched is built
    from a document that some strategy's search returned for that strategy's
    query and that passed the knockoff test, the author test when the
    strategy asks for it, and the title-overlap test unless the query has no
    word of three characters or more, in which case the overlap test is
    skipped. *)
Theorem accepted_candidate_filters (searches : nat → Resolver.SearchService)
    (book : Book) (r : Resolver.Result) :
  Resolver.lookupOneBook searches book = Some r →
  Resolver.r_matched r = Resolver.Bool true →
  ∃ i st q doc,
    Resolver.strategies book !! i = Some st
    ∧ Resolver.query st = Some (Some q)
    ∧ doc ∈ searches i (Resolver.titleField st) q
    ∧ r = Resolver.docToResult doc book
    ∧ Resolver.isSummaryKnockoff (Resolver.doc_title doc) (title book) = false
    ∧ (Resolver.useAuthorFilter st = true →
         Resolver.authorsMatch (author book)
           (JS.join ", " (default [] (Resolver.author_name doc))) = true)
    ∧ (Resolver.titleWords q = []
       ∨ Resolver.titleOverlap q (Resolver.doc_title doc) = true).
Proof.
  intros Hr Hm.
  destruct (cascade_accept _ _ _ _ _ Hr Hm) as (i & st & doc & Hi & Ht & ->).
  apply tryStrategy_accept in Ht as (q & Hq & Hin & Hp).
  apply passes_true in Hp as (Hk & Ha & Ho).
  exists i, st, q, doc. simpl in Hin. done.
Qed.

Lemma accepted_candidate_filters_witness :
  let book := {| title := Some "Dune"; author := Some "Frank Herbert";
                 confidence := Some "high"; corrected := None |} in
  let dune := {| Resolver.doc_title := Some "Dune";
                 Resolver.author_name := Some ["Frank Herbert"];
                 Resolver.isbn := Some ["9780441013593"];
                 Resolver.cover_i := Some 11481354;
                 Resolver.first_publish_year := Some 1965;
                 Resolver.publisher := Some ["Ace"];
                 Resolver.number_of_pages_median := Some 541;
                 Resolver.subject := Some ["Science fiction"] |} in
  let searches : nat → Resolver.SearchService := λ _ _ _, [dune] in
  Resolver.lookupOneBook searches book = Some (Resolver.docToResult dune book)
  ∧ ∃ i st q doc,
      Resolver.strategies book !! i = Some st
      ∧ Resolver.query st = Some (Some q)
      ∧ doc ∈ searches i (Resolver.titleField st) q
      ∧ Resolver.docToResult dune book = Resolver.docToResult doc book
      ∧ (Resolver.titleWords q = []
         ∨ Resolver.titleOverlap q (Resolver.doc_title doc) = true).
Proof.
  intros book dune searches. split; [reflexivity|].
  destruct (accepted_candidate_filters searches book
              (Resolver.docToResult dune book))
    as (i & st & q & doc & Hi & Hq & Hin & Hr & _ & _ & Ho);
    [reflexivity | reflexivity |].
  exists i, st, q, doc. repeat split; assumption.
Defined.

(** C5 — when every strategy of the cascade ends without an accepted
    candidate, [lookupOneBook] returns the input record with [matched] set
    to false: title, author, confidence and corrected are the input's, and
    no other field is added. *)
Theorem exhausted_cascade_keeps_record (searches : nat → Resolver.SearchService)
    (book : Book) :
  (∀ i st, Resolver.strategies book !! i = Some st →
           Resolver.tryStrategy (searches i) book st = Resolver.NoMatch) →
  ∃ r, Resolver.lookupOneBook searches book = Some r
       ∧ Resolver.r_matched r = Resolver.Bool false
       ∧ Resolver.r_title r = Resolver.of_string (title book)
       ∧ Resolver.r_author r = Resolver.of_string (author book)
       ∧ Resolver.r_confidence r = Resolver.of_string (confidence book)
       ∧ Resolver.r_corrected r = Resolver.of_bool (corrected book)
       ∧ r = Resolver.unmatched book.
Proof.
  intros Hall. exists (Resolver.unmatched book).
  split; [|by repeat split].
  apply cascade_exhausted. intros j st Hj. by apply Hall.
Qed.

Lemma exhausted_cascade_keeps_record_witness :
  let book := {| title := Some "The Hobbit: There and Back Again";
                 author := Some "J. R. R. Tolkien";
                 confidence := Some "medium"; corrected := Some true |} in
  ∃ r, Resolver.lookupOneBook (λ _ _ _, []) book = Some r
       ∧ Resolver.r_matched r = Resolver.Bool false
       ∧ Resolver.r_title r = Resolver.Str "The Hobbit: There and Back Again"
       ∧ Resolver.r_author r = Resolver.Str "J. R. R. Tolkien".
Proof.
  intros book.
  destruct (exhausted_cascade_keeps_record (λ _ _ _, []) book)
    as (r & Hr & Hm & Ht & Ha & _).
  - intros i st Hi.
    do 6 (destruct i as [|i]; [injection Hi as <-; reflexivity|]).
    discriminate Hi.
  - exists r. repeat split; assumption.
Defined.

(** C1 — for every list of books that carry a title, the empty list
    included, the handler answers with a list of the same length whose entry
    at each index is the result of [lookupOneBook] on the book at that
    index. *)
Theorem api_lookup_one_to_one
    (service : nat → nat → Resolver.SearchService) (books : list Book) :
  Forall (λ b, is_Some (title b)) books →
  Resolver.api_lookup service [] = Resolver.Json []
  ∧ ∃ results,
      Resolver.api_lookup service books = Resolver.Json results
      ∧ length results = length books
      ∧ ∀ i b, books !! i = Some b →
          ∃ r, results !! i = Some r
               ∧ Resolver.lookupOneBook (service i) b = Some r.
Proof.
  intros Htitles. split; [done|].
  unfold Resolver.api_lookup, Resolver.promise_all.
  destruct (mapM id _) as [results|] eqn:Hall.
  - exists results. split; [done|].
    apply mapM_Some in Hall.
    pose proof (Forall2_length _ _ _ Hall) as Hlen.
    rewrite length_imap in Hlen. split; [done|].
    intros i b Hb.
    destruct (Forall2_lookup_l _ _ _ i (Resolver.lookupOneBook (service i) b)
                Hall) as (r & Hr & Hi).
    { by rewrite list_lookup_imap, Hb. }
    exists r. done.
  - exfalso. apply eq_None_not_Some in Hall. apply Hall.
    apply mapM_is_Some. apply Forall_forall. intros p Hp.
    apply list_elem_of_lookup in Hp as [i Hp].
    rewrite list_lookup_imap in Hp.
    destruct (books !! i) as [b|] eqn:Hb; [|done]. injection Hp as <-.
    apply lookupOneBook_returns.
    eapply (proj1 (Forall_forall _ _) Htitles).
    by eapply list_elem_of_lookup_2.
Qed.

Lemma api_lookup_one_to_one_witness :
  let dune := {| title := Some "Dune"; author := Some "Frank Herbert";
                 confidence := Some "high"; corrected := None |} in
  let it := {| title := Some "It"; author := Some "Stephen King";
               confidence := Some "low"; corrected := None |} in
  ∃ results,
    Resolver.api_lookup (λ _ _ _ _, []) [dune; it] = Resolver.Json results
    ∧ length results = 2%nat.
Proof.
  intros dune it.
  destruct (api_lookup_one_to_one (λ _ _ _ _, []) [dune; it])
    as (_ & results & Hr & Hlen & _).
  - repeat constructor; by eexists.
  - exists results. split; assumption.
Defined.

(** ** Strings *)
Section StringFacts.

Lemma app_cons (c : ascii) (s t : string) :
  String c s +:+ t = String c (s +:+ t).
Proof. reflexivity. Qed.

Lemma app_nil_r_s (s : string) : s +:+ "" = s.
Proof. induction s as [|c s IH]; [done|]. by rewrite app_cons, IH. Qed.

Lemma app_assoc_s (s t u : string) : (s +:+ t) +:+ u = s +:+ (t +:+ u).
Proof. induction s as [|c s IH]; [done|]. by rewrite !app_cons, IH. Qed.

Lemma rev_app_spec (s t : string) : String.rev_app s t = String.rev s +:+ t.
Proof.
  unfold String.rev. revert t. induction s as [|c s IH]; intros t; [done|].
  cbn. rewrite (IH (String c t)), (IH (String c "")).
  by rewrite app_assoc_s.
Qed.

Lemma rev_cons (c : ascii) (s : string) :
  String.rev (String c s) = String.rev s +:+ String c "".
Proof. unfold String.rev at 1. cbn. apply rev_app_spec. Qed.

Lemma rev_app_distr_s (s t : string) :
  String.rev (s +:+ t) = String.rev t +:+ String.rev s.
Proof.
  induction s as [|c s IH].
  - change (String.rev t = String.rev t +:+ ""). by rewrite app_nil_r_s.
  - rewrite app_cons, !rev_cons, IH. by rewrite app_assoc_s.
Qed.

Lemma rev_involutive_s (s : string) : String.rev (String.rev s) = s.
Proof.
  induction s as [|c s IH]; [done|].
  by rewrite rev_cons, rev_app_distr_s, IH.
Qed.

Lemma every_app (p : ascii → bool) (s t : string) :
  Text.every p (s +:+ t) = Text.every p s && Text.every p t.
Proof.
  induction s as [|c s IH]; [done|]. rewrite app_cons. cbn.
  by rewrite IH, andb_assoc.
Qed.

Lemma every_rev (p : ascii → bool) (s : string) :
  Text.every p (String.rev s) = Text.every p s.
Proof.
  induction s as [|c s IH]; [done|].
  rewrite rev_cons, every_app, IH. cbn. rewrite andb_true_r. apply andb_comm.
Qed.

Lemma every_impl (p q : ascii → bool) (s : string) :
  (∀ c, p c = true → q c = true) → Text.every p s = true →
  Text.every q s = true.
Proof.
  intros Hpq. induction s as [|c s IH]; [done|]. cbn.
  intros [Hc Hs]%andb_prop. by rewrite (Hpq c Hc), IH.
Qed.

Lemma every_keep (p : ascii → bool) (s : string) :
  Text.every p (JS.keep p s) = true.
Proof.
  induction s as [|c s IH]; [done|]. cbn.
  destruct (p c) eqn:Hc; [|done]. cbn. by rewrite Hc.
Qed.

Lemma keep_every (p : ascii → bool) (s : string) :
  Text.every p s = true → JS.keep p s = s.
Proof.
  induction s as [|c s IH]; [done|]. cbn.
  intros [Hc Hs]%andb_prop. by rewrite Hc, IH.
Qed.



Lemma smap_id_on (f : ascii → ascii) (p : ascii → bool) (s : string) :
  (∀ c, p c = true → f c = c) → Text.every p s = true → JS.smap f s = s.
Proof.
  intros Hf. induction s as [|c s IH]; [done|]. cbn.
  intros [Hc Hs]%andb_prop. by rewrite (Hf c Hc), IH.
Qed.

Lemma trimStart_no_space (s : string) :
  Text.every (λ c, negb (JS.is_space c)) s = true → JS.trimStart s = s.
Proof.
  destruct s as [|c s]; [done|]. cbn.
  intros [Hc _]%andb_prop. by apply negb_true_iff in Hc as ->.
Qed.

Lemma trim_no_space (s : string) :
  Text.every (λ c, negb (JS.is_space c)) s = true → JS.trim s = s.
Proof.
  intros Hs. unfold JS.trim.
  rewrite (trimStart_no_space s Hs), trimStart_no_space.
  - apply rev_involutive_s.
  - by rewrite every_rev.
Qed.

(** Character classes, through the code of the character. *)
Lemma in_range_spec (lo hi : N) (c : ascii) :
  JS.in_range lo hi c = true ↔ (lo ≤ JS.code c ≤ hi)%N.
Proof.
  unfold JS.in_range. rewrite andb_true_iff, !N.leb_le. done.
Qed.

Lemma is_alnum_spec (c : ascii) :
  Dedup.is_alnum c = true ↔
  (97 ≤ JS.code c ≤ 122)%N ∨ (48 ≤ JS.code c ≤ 57)%N.
Proof.
  unfold Dedup.is_alnum, JS.is_lower, JS.is_digit.
  by rewrite orb_true_iff, !in_range_spec.
Qed.

Lemma is_space_spec (c : ascii) :
  JS.is_space c = true ↔ (9 ≤ JS.code c ≤ 13)%N ∨ JS.code c = 32%N.
Proof.
  unfold JS.is_space. by rewrite orb_true_iff, in_range_spec, N.eqb_eq.
Qed.

Lemma is_upper_spec (c : ascii) :
  JS.is_upper c = true ↔ (65 ≤ JS.code c ≤ 90)%N.
Proof. apply in_range_spec. Qed.

Lemma alnum_not_space (c : ascii) :
  Dedup.is_alnum c = true → negb (JS.is_space c) = true.
Proof.
  intros Hc%is_alnum_spec. apply negb_true_iff, not_true_is_false.
  intros Hs%is_space_spec. lia.
Qed.

Lemma lower_char_alnum (c : ascii) :
  Dedup.is_alnum c = true → JS.lower_char c = c.
Proof.
  intros Hc%is_alnum_spec. unfold JS.lower_char.
  destruct (JS.is_upper c) eqn:Hu; [|done].
  apply is_upper_spec in Hu. lia.
Qed.




(** [trim] finds nothing to remove in a normalized title. *)
Lemma normalizeTitle_keep (t : option string) :
  Dedup.normalizeTitle t
  = JS.keep Dedup.is_alnum (JS.toLowerCase (JS.or_empty t)).
Proof.
  unfold Dedup.normalizeTitle. apply trim_no_space.
  eapply every_impl; [apply alnum_not_space | apply every_keep].
Qed.

End StringFacts.

(** X1 — a normalized title holds only the characters a to z and 0 to 9
    (in particular no white space: the final [trim] removes nothing). *)
Theorem normalizeTitle_alphanumeric (t : option string) :
  Text.every Dedup.is_alnum (Dedup.normalizeTitle t) = true
  ∧ Dedup.normalizeTitle t
    = JS.keep Dedup.is_alnum (JS.toLowerCase (JS.or_empty t)).
Proof.
  rewrite normalizeTitle_keep. split; [apply every_keep | done].
Qed.

(** X2 — normalizing is idempotent: a normalized title is its own key. *)
Theorem normalizeTitle_idempotent (t : option string) :
  Dedup.normalizeTitle (Some (Dedup.normalizeTitle t)) = Dedup.normalizeTitle t.
Proof.
  rewrite !normalizeTitle_keep. simpl.
  set (k := JS.keep Dedup.is_alnum (JS.toLowerCase (JS.or_empty t))).
  assert (Text.every Dedup.is_alnum k = true) as Hk by apply every_keep.
  unfold JS.toLowerCase.
  rewrite (smap_id_on _ _ k lower_char_alnum Hk). by apply keep_every.
Qed.



(** ** More on deduplication *)
Section DedupMore.
Import Dedup.

Lemma map_set_values (m : BookMap) k v : (map_set m k v).*2 ⊆+ v :: m.*2.
Proof.
  induction m as [|[k' v'] m IH]; simpl; [done|].
  case_decide; simpl.
  - apply submseteq_skip, submseteq_cons. done.
  - etrans; [apply submseteq_skip, IH|]. apply Permutation_submseteq, perm_swap.
Qed.

Lemma step_values (m : BookMap) (b : Book) : (step m b).*2 ⊆+ b :: m.*2.
Proof.
  destruct (step_cases m b)
    as [[_ ->]|[(_ & Hget & Hst)|(_ & e & _ & [[_ ->]|[_ ->]])]].
  - by apply submseteq_cons.
  - rewrite Hst, <-map_set_fresh by done. apply map_set_values.
  - apply map_set_values.
  - by apply submseteq_cons.
Qed.

Lemma foldl_step_values (xs : list Book) (m : BookMap) :
  (foldl step m xs).*2 ⊆+ xs ++ m.*2.
Proof.
  revert m. induction xs as [|b xs IH]; intros m; simpl; [done|].
  etrans; [apply IH|]. etrans; [apply submseteq_skips_l, step_values|].
  apply Permutation_submseteq. by rewrite Permutation_middle.
Qed.

Lemma step_keys (m : BookMap) (b : Book) :
  (step m b).*1
  = m.*1 ++ (if decide (key b ≠ "" ∧ key b ∉ m.*1) then [key b] else []).
Proof.
  destruct (step_cases m b)
    as [[Hk ->]|[(Hk & Hget & ->)|(Hk & e & Hget & Hst)]].
  - rewrite decide_False; [by rewrite app_nil_r | tauto].
  - apply assoc_None in Hget. by rewrite decide_True, fmap_app.
  - assert ((step m b).*1 = m.*1) as ->.
    { destruct Hst as [[_ ->]|[_ ->]]; [by erewrite map_set_keys | done]. }
    rewrite decide_False; [by rewrite app_nil_r|].
    intros [_ Hnot]. apply Hnot. apply assoc_Some_elem in Hget.
    apply list_elem_of_fmap. by exists (key b, e).
Qed.

Lemma dedup_submseteq (xs : list Book) : deduplicateBooks xs ⊆+ xs.
Proof.
  unfold deduplicateBooks, map_values.
  etrans; [apply foldl_step_values|]. by rewrite app_nil_r.
Qed.


End DedupMore.

(** X4 — the output of [deduplicateBooks] is a sub-multiset of its input:
    every record returned is a record of the input, unaltered, returned at
    most as often as it was given; so the output is never longer than the
    input. *)
Theorem deduplicateBooks_submultiset (xs : list Book) :
  Dedup.deduplicateBooks xs ⊆+ xs
  ∧ (∀ v, v ∈ Dedup.deduplicateBooks xs → v ∈ xs)
  ∧ (length (Dedup.deduplicateBooks xs) ≤ length xs)%nat.
Proof.
  pose proof (dedup_submseteq xs) as Hsub.
  split; [done|]. split.
  - intros v Hv. by eapply elem_of_submseteq.
  - by apply submseteq_length.
Qed.

(** X5 — the lists that [deduplicateBooks] leaves unchanged are exactly
    those whose records have pairwise distinct, non-empty keys. *)
Theorem deduplicateBooks_fixed_points (xs : list Book) :
  Dedup.deduplicateBooks xs = xs
  ↔ NoDup (Dedup.key <$> xs) ∧ Forall (λ b, Dedup.key b ≠ "") xs.
Proof.
  split.
  - intros Hfix.
    destruct (foldl_step_filed xs []) as [Hnd Hf]; [apply NoDup_nil_2 | done |].
    pose proof (filed_keys _ Hf) as Hkeys.
    unfold Dedup.deduplicateBooks in Hfix. rewrite Hfix in Hkeys. split.
    + by rewrite Hkeys.
    + rewrite <-Hfix. unfold Dedup.map_values.
      apply Forall_fmap. eapply Forall_impl; [exact Hf|].
      intros [k v] [Hk Hne]. simpl in *. congruence.
  - intros [Hnd Hne]. unfold Dedup.deduplicateBooks.
    set (m := (λ b, (Dedup.key b, b)) <$> xs).
    assert (Dedup.map_values m = xs) as Hval.
    { unfold Dedup.map_values, m. rewrite <-list_fmap_compose.
      apply list_fmap_id. }
    assert (m.*1 = Dedup.key <$> xs) as Hfst.
    { unfold m. by rewrite <-list_fmap_compose. }
    trans (Dedup.map_values (foldl Dedup.step [] (Dedup.map_values m)));
      [by rewrite Hval|].
    rewrite (replay m []).
    + done.
    + simpl. by rewrite Hfst.
    + unfold m. apply Forall_fmap. eapply Forall_impl; [exact Hne|].
      intros b Hb. by split.
Qed.

(** X6 — deduplication can be done in stages: deduplicating a first batch
    and then the result together with a second batch gives what
    deduplicating both batches at once gives. *)
Theorem deduplicateBooks_incremental (xs ys : list Book) :
  Dedup.deduplicateBooks (Dedup.deduplicateBooks xs ++ ys)
  = Dedup.deduplicateBooks (xs ++ ys).
Proof.
  unfold Dedup.deduplicateBooks. rewrite !foldl_app. f_equal. f_equal.
  destruct (foldl_step_filed xs []) as [Hnd Hf]; [apply NoDup_nil_2 | done |].
  by rewrite (replay _ []).
Qed.

(** X7 — the output lists the keys in the order in which they first occur
    in the input: its keys are the non-empty keys of the input with every
    occurrence but the first removed. *)
Theorem deduplicateBooks_first_seen_order (xs : list Book) :
  Dedup.key <$> Dedup.deduplicateBooks xs
  = reverse (remove_dups (reverse
      (filter (λ k, k ≠ "") (Dedup.key <$> xs)))).
Proof.
  unfold Dedup.deduplicateBooks.
  destruct (foldl_step_filed xs []) as [_ Hf]; [apply NoDup_nil_2 | done |].
  rewrite (filed_keys _ Hf). clear Hf.
  induction xs as [|b xs IH] using rev_ind; [done|].
  destruct (foldl_Inv xs) as (_ & _ & Hkeys & _).
  assert (∀ k, k ∈ reverse (filter (λ k, k ≠ "") (Dedup.key <$> xs))
               ↔ k ∈ (foldl Dedup.step [] xs).*1) as Hmem.
  { intros k. rewrite elem_of_reverse, list_elem_of_filter, Hkeys.
    rewrite list_elem_of_fmap. split.
    - intros [? (x & -> & ?)]. eauto.
    - intros [? (x & ? & <-)]. eauto. }
  rewrite foldl_app. simpl. rewrite step_keys.
  rewrite fmap_app, filter_app, reverse_app.
  change (Dedup.key <$> [b]) with [Dedup.key b].
  rewrite filter_cons, filter_nil.
  destruct (decide (Dedup.key b ≠ "")) as [Hne|He].
  - rewrite reverse_singleton. cbn [app remove_dups].
    destruct (decide_rel elem_of (Dedup.key b) (reverse _)) as [Hin|Hnot].
    + rewrite decide_False; [by rewrite app_nil_r, IH|].
      intros [_ Hn]. by apply Hn, Hmem.
    + rewrite decide_True; [by rewrite reverse_cons, IH|].
      split; [done|]. intros Hk. by apply Hnot, Hmem.
  - rewrite decide_False by (by intros [? _]). rewrite app_nil_r. exact IH.
Qed.

(** ** More on tiling *)
Section TilingMore.
Import Tiling.

Lemma length_grid (w h cols rows : Z) :
  cols = 2 ∨ cols = 3 ∨ cols = 4 →
  rows = 1 ∨ rows = 2 ∨ rows = 3 ∨ rows = 4 →
  length (grid w h cols rows) = Z.to_nat (cols * rows).
Proof. intros [->|[->| ->]] [->|[->|[->| ->]]]; reflexivity. Qed.

Lemma tileImage_tiled (w h : Z) (ov : option Overview) :
  1200 ≤ w ∨ 1200 ≤ h →
  tileImage w h ov
  = grid w h (grid_cols (bookCount ov) w) (grid_rows (shelfCount ov) h).
Proof.
  intros Hbig. unfold tileImage.
  destruct (w <? 1200) eqn:E1, (h <? 1200) eqn:E2; try done. lia.
Qed.

Lemma tileImage_whole (w h : Z) (ov : option Overview) :
  w < 1200 → h < 1200 →
  tileImage w h ov
  = [{| left := 0; top := 0; width := w; height := h; label := "full image" |}].
Proof.
  intros Hw Hh. unfold tileImage.
  by rewrite (proj2 (Z.ltb_lt w 1200) Hw), (proj2 (Z.ltb_lt h 1200) Hh).
Qed.

Lemma round_overlap_le (c : Z) : 0 ≤ c → round_overlap c ≤ c.
Proof. intros ?. unfold round_overlap. Z.div_mod_to_equations. lia. Qed.

(** The rounded cells reach the far edge or stop one pixel short of it. *)
Lemma cells_extent (n d : Z) :
  0 ≤ n → d = 1 ∨ d = 2 ∨ d = 3 ∨ d = 4 →
  n - 1 ≤ d * round_div n d
  ∧ (n ≤ d * round_div n d ↔ ¬ (3 ≤ d ∧ n `mod` d = 1)).
Proof.
  intros Hn Hd. unfold round_div.
  destruct Hd as [->|[->|[->| ->]]]; Z.div_mod_to_equations; lia.
Qed.

Lemma beyond_grid_uncovered (w h cols rows x y : Z) :
  0 ≤ w → 0 ≤ h →
  cols = 2 ∨ cols = 3 ∨ cols = 4 →
  rows = 1 ∨ rows = 2 ∨ rows = 3 ∨ rows = 4 →
  cols * cellW w cols ≤ x ∨ rows * cellH h rows ≤ y →
  covered (grid w h cols rows) x y = false.
Proof.
  intros Hw Hh Hcols Hrows Hout. apply not_true_is_false.
  intros (r & (row & col & Hrow & Hcol & ->)%elem_of_grid & Hc)%covered_true.
  unfold contains, region in Hc. cbn [left top width height] in Hc.
  rewrite !andb_true_iff, !Z.leb_le, !Z.ltb_lt in Hc.
  destruct Hc as [[[_ Hx] _] Hy].
  pose proof (round_div_nonneg w cols Hw ltac:(lia)) as HW.
  pose proof (round_div_nonneg h rows Hh ltac:(lia)) as HH.
  fold (cellW w cols) in HW. fold (cellH h rows) in HH.
  pose proof (round_overlap_le _ HW). pose proof (round_overlap_le _ HH).
  pose proof (round_overlap_nonneg _ HW). pose proof (round_overlap_nonneg _ HH).
  destruct Hout as [Hout|Hout].
  - clear Hy. destruct Hcols as [->|[->| ->]];
      assert (col = 0 ∨ col = 1 ∨ col = 2 ∨ col = 3) as [->|[->|[->| ->]]]
        by lia; simpl in Hx; lia.
  - clear Hx. destruct Hrows as [->|[->|[->| ->]]];
      assert (row = 0 ∨ row = 1 ∨ row = 2 ∨ row = 3) as [->|[->|[->| ->]]]
        by lia; simpl in Hy; lia.
Qed.

Lemma axis_positive (n d i : Z) :
  7 ≤ n → d = 1 ∨ d = 2 ∨ d = 3 ∨ d = 4 → 0 ≤ i < d →
  0 < Z.min n ((i + 1) * round_div n d
               + (if i <? d - 1 then round_overlap (round_div n d) else 0))
      - Z.max 0 (i * round_div n d
                 - (if 0 <? i then round_overlap (round_div n d) else 0)).
Proof.
  intros Hn Hd Hi. unfold round_overlap, round_div.
  destruct Hd as [->|[->|[->| ->]]];
    assert (i = 0 ∨ i = 1 ∨ i = 2 ∨ i = 3) as [->|[->|[->| ->]]] by lia;
    try lia; simpl; Z.div_mod_to_equations; lia.
Qed.

Lemma length_tileImage (w h : Z) (ov : option Overview) :
  length (tileImage w h ov)
  = (if (w <? 1200) && (h <? 1200) then 1%nat
     else Z.to_nat (grid_cols (bookCount ov) w * grid_rows (shelfCount ov) h)).
Proof.
  unfold tileImage. destruct ((w <? 1200) && (h <? 1200)); [done|].
  apply length_grid; [apply grid_cols_cases | apply grid_rows_cases].
Qed.

Lemma grid_cols_mono (n n' w : Z) : n ≤ n' → grid_cols n w ≤ grid_cols n' w.
Proof.
  intros Hn. unfold grid_cols.
  destruct (Z.leb_spec 40 n), (Z.leb_spec 40 n'), (Z.leb_spec 3000 w),
    (Z.leb_spec 20 n), (Z.leb_spec 20 n'), (Z.leb_spec 2000 w); simpl; lia.
Qed.

Lemma grid_rows_mono (s s' h : Z) : s ≤ s' → grid_rows s h ≤ grid_rows s' h.
Proof.
  intros Hs. unfold grid_rows.
  destruct (Z.leb_spec 4 s), (Z.leb_spec 4 s'), (Z.leb_spec 3000 h),
    (Z.leb_spec 2 s), (Z.leb_spec 2 s'), (Z.leb_spec 1600 h); simpl; lia.
Qed.

Lemma or_num_mono (x x' d : Z) : 0 ≤ d ≤ 1 → x ≤ x' → or_num x d ≤ or_num x' d.
Proof.
  intros Hd Hx. unfold or_num.
  destruct (Z.eqb_spec x 0), (Z.eqb_spec x' 0); lia.
Qed.

End TilingMore.

(** X8 — a tiled partition covers the whole image exactly when neither the
    width leaves remainder 1 on division by three or four columns nor the
    height leaves remainder 1 on division by three or four rows; in every
    case only the last pixel column and the last pixel row can be left
    out. *)
Theorem tileImage_gap_exact (w h : Z) (ov : option Tiling.Overview) :
  1 ≤ w → 1 ≤ h → 1200 ≤ w ∨ 1200 ≤ h →
  let cols := Tiling.grid_cols (Tiling.bookCount ov) w in
  let rows := Tiling.grid_rows (Tiling.shelfCount ov) h in
  ((∀ x y, 0 ≤ x < w → 0 ≤ y < h →
           Tiling.covered (Tiling.tileImage w h ov) x y = true)
   ↔ ¬ (3 ≤ cols ∧ w `mod` cols = 1) ∧ ¬ (3 ≤ rows ∧ h `mod` rows = 1))
  ∧ (∀ x y, 0 ≤ x < w - 1 → 0 ≤ y < h - 1 →
            Tiling.covered (Tiling.tileImage w h ov) x y = true).
Proof.
  intros Hw Hh Hbig cols rows.
  pose proof (grid_cols_cases (Tiling.bookCount ov) w) as Hcols.
  pose proof (grid_rows_cases (Tiling.shelfCount ov) h) as Hrows.
  fold cols in Hcols. fold rows in Hrows.
  destruct (cells_extent w cols) as [HW1 HW]; [lia | tauto |].
  destruct (cells_extent h rows) as [HH1 HH]; [lia | done |].
  fold (Tiling.cellW w cols) in HW1, HW. fold (Tiling.cellH h rows) in HH1, HH.
  rewrite tileImage_tiled by done. fold cols rows.
  split; [split|].
  - intros Hall. rewrite <-HW, <-HH. split.
    + destruct (decide (w ≤ cols * Tiling.cellW w cols)) as [|Hgap]; [done|].
      specialize (Hall (w - 1) 0 ltac:(lia) ltac:(lia)).
      rewrite beyond_grid_uncovered in Hall; [done | lia.. | tauto | done |].
      left. lia.
    + destruct (decide (h ≤ rows * Tiling.cellH h rows)) as [|Hgap]; [done|].
      specialize (Hall 0 (h - 1) ltac:(lia) ltac:(lia)).
      rewrite beyond_grid_uncovered in Hall; [done | lia.. | tauto | done |].
      right. lia.
  - rewrite <-HW, <-HH. intros [? ?] x y Hx Hy. apply grid_covers; lia.
  - intros x y Hx Hy. apply grid_covers; lia.
Qed.

Lemma tileImage_gap_exact_witness :
  (∀ x y, 0 ≤ x < 2400 → 0 ≤ y < 1600 →
          Tiling.covered (Tiling.tileImage 2400 1600 None) x y = true)
  ∧ (∀ x y, 0 ≤ x < 2001 → 0 ≤ y < 1499 →
            Tiling.covered (Tiling.tileImage 2002 1500 None) x y = true).
Proof.
  split.
  - apply (proj1 (tileImage_gap_exact 2400 1600 None
                    ltac:(lia) ltac:(lia) ltac:(lia))).
    vm_compute. split; intros [_ H]; discriminate H.
  - apply (proj2 (tileImage_gap_exact 2002 1500 None
                    ltac:(lia) ltac:(lia) ltac:(lia))).
Defined.

(** X9 — for an image at least 7 pixels wide and 7 pixels high every
    region has positive width and height, so that every extraction is of a
    non-empty area. *)
Theorem tiles_have_positive_area (w h : Z) (ov : option Tiling.Overview)
    (r : Tiling.Region) :
  7 ≤ w → 7 ≤ h → r ∈ Tiling.tileImage w h ov →
  0 < Tiling.width r ∧ 0 < Tiling.height r.
Proof.
  intros Hw Hh Hr. unfold Tiling.tileImage in Hr.
  destruct ((w <? 1200) && (h <? 1200)).
  - apply list_elem_of_singleton in Hr as ->. simpl. lia.
  - apply elem_of_grid in Hr as (row & col & Hrow & Hcol & ->).
    pose proof (grid_cols_cases (Tiling.bookCount ov) w) as Hcols.
    pose proof (grid_rows_cases (Tiling.shelfCount ov) h) as Hrows.
    unfold Tiling.region. cbn [Tiling.width Tiling.height]. split.
    + apply axis_positive; [done | tauto | done].
    + apply axis_positive; [done | done | done].
Qed.

Lemma tiles_have_positive_area_witness :
  0 < Tiling.width (Tiling.region 2400 1600 3 2 1 2)
  ∧ 0 < Tiling.height (Tiling.region 2400 1600 3 2 1 2).
Proof.
  apply (tiles_have_positive_area 2400 1600 None); [lia | lia |].
  apply elem_of_grid. exists 1, 2. vm_compute. repeat split; congruence.
Defined.

(** X10 — the labels of the regions of a partition are pairwise distinct,
    and there are as many regions as cells of the grid: one for a small
    image, otherwise between 2 and 16. *)
Theorem tileImage_labels_distinct (w h : Z) (ov : option Tiling.Overview) :
  NoDup (Tiling.label <$> Tiling.tileImage w h ov)
  ∧ length (Tiling.tileImage w h ov)
    = (if (w <? 1200) && (h <? 1200) then 1%nat
       else Z.to_nat (Tiling.grid_cols (Tiling.bookCount ov) w
                      * Tiling.grid_rows (Tiling.shelfCount ov) h))
  ∧ (1 ≤ length (Tiling.tileImage w h ov) ≤ 16)%nat.
Proof.
  pose proof (grid_cols_cases (Tiling.bookCount ov) w) as Hcols.
  pose proof (grid_rows_cases (Tiling.shelfCount ov) h) as Hrows.
  rewrite length_tileImage.
  unfold Tiling.tileImage. destruct ((w <? 1200) && (h <? 1200)).
  { split; [apply NoDup_singleton|]. split; [done | lia]. }
  split; [|split; [done|]].
  - destruct Hcols as [->|[->| ->]], Hrows as [->|[->|[->| ->]]];
      apply (bool_decide_unpack _); vm_compute; reflexivity.
  - destruct Hcols as [->|[->| ->]], Hrows as [->|[->|[->| ->]]]; simpl; lia.
Qed.

(** X11 — the grid is adaptive in one direction only: a larger estimate of
    books or of shelves never gives fewer columns, fewer rows or fewer
    tiles. *)
Theorem larger_estimate_no_fewer_tiles (w h : Z) (o1 o2 : Tiling.Overview) :
  Tiling.count o1 ≤ Tiling.count o2 →
  Tiling.shelves o1 ≤ Tiling.shelves o2 →
  Tiling.grid_cols (Tiling.bookCount (Some o1)) w
  ≤ Tiling.grid_cols (Tiling.bookCount (Some o2)) w
  ∧ Tiling.grid_rows (Tiling.shelfCount (Some o1)) h
    ≤ Tiling.grid_rows (Tiling.shelfCount (Some o2)) h
  ∧ (length (Tiling.tileImage w h (Some o1))
     ≤ length (Tiling.tileImage w h (Some o2)))%nat.
Proof.
  intros Hc Hs.
  assert (Tiling.grid_cols (Tiling.bookCount (Some o1)) w
          ≤ Tiling.grid_cols (Tiling.bookCount (Some o2)) w) as Hcols.
  { apply grid_cols_mono, or_num_mono; simpl; lia. }
  assert (Tiling.grid_rows (Tiling.shelfCount (Some o1)) h
          ≤ Tiling.grid_rows (Tiling.shelfCount (Some o2)) h) as Hrows.
  { apply grid_rows_mono, or_num_mono; simpl; lia. }
  split; [done|]. split; [done|].
  rewrite !length_tileImage.
  destruct ((w <? 1200) && (h <? 1200)); [done|].
  pose proof (grid_cols_cases (Tiling.bookCount (Some o1)) w).
  pose proof (grid_rows_cases (Tiling.shelfCount (Some o1)) h).
  apply Z2Nat.inj_le; nia.
Qed.

Lemma larger_estimate_no_fewer_tiles_witness :
  (length (Tiling.tileImage 1500 1500
             (Some {| Tiling.count := 12; Tiling.shelves := 1;
                      Tiling.notes := "" |}))
   ≤ length (Tiling.tileImage 1500 1500
               (Some {| Tiling.count := 45; Tiling.shelves := 3;
                        Tiling.notes := "" |})))%nat.
Proof.
  apply (larger_estimate_no_fewer_tiles 1500 1500
           {| Tiling.count := 12; Tiling.shelves := 1; Tiling.notes := "" |}
           {| Tiling.count := 45; Tiling.shelves := 3; Tiling.notes := "" |});
    simpl; lia.
Defined.

(** ** More on the catalogue lookup *)
Section ResolverMore.
Import Resolver.

Lemma prefix_app_l (p q s : string) :
  String.prefix (p +:+ q) s = true → String.prefix p s = true.
Proof.
  revert s. induction p as [|a p IH]; intros s; [by destruct s|].
  rewrite app_cons. destruct s as [|b s]; [done|]. simpl.
  destruct (ascii_dec a b); [apply IH | done].
Qed.

Lemma find_split {A} (f : A → bool) (l : list A) (x : A) :
  List.find f l = Some x →
  ∃ l1 l2, l = l1 ++ x :: l2 ∧ f x = true ∧ ∀ y, y ∈ l1 → f y = false.
Proof.
  induction l as [|a l IH]; simpl; [done|].
  destruct (f a) eqn:Ha.
  - intros [= ->]. exists [], l. split; [done|]. split; [done|].
    intros y Hy. by apply elem_of_nil in Hy.
  - intros (l1 & l2 & -> & Hx & Hl1)%IH. exists (a :: l1), l2.
    split; [done|]. split; [done|].
    intros y [->|Hy]%elem_of_cons; auto.
Qed.

Lemma find_none_all {A} (f : A → bool) (l : list A) :
  List.find f l = None → ∀ y, y ∈ l → f y = false.
Proof.
  intros Hnone y Hy%list_elem_of_In. by eapply find_none in Hnone.
Qed.

Lemma cascade_first (searches : nat → SearchService) (book : Book)
    (sts : list Strategy) (i : nat) (r : Result) :
  cascade searches book i sts = Some r → r_matched r = Bool true →
  ∃ j st doc, sts !! j = Some st
    ∧ tryStrategy (searches (i + j)%nat) book st = Accept doc
    ∧ r = docToResult doc book
    ∧ ∀ j' st', (j' < j)%nat → sts !! j' = Some st' →
        tryStrategy (searches (i + j')%nat) book st' = NoMatch.
Proof.
  revert i. induction sts as [|st sts IH]; intros i; simpl.
  - intros [= <-]. done.
  - destruct (tryStrategy (searches i) book st) as [doc| |] eqn:Htry; [| |done].
    + intros [= <-] _. exists 0%nat, st, doc. rewrite Nat.add_0_r.
      repeat split; try done. intros j' st' Hj'. lia.
    + intros Hc Hm.
      destruct (IH _ Hc Hm) as (j & st' & doc & Hj & Ht & -> & Hearlier).
      exists (S j), st', doc. split; [done|].
      replace (i + S j)%nat with (S i + j)%nat by lia.
      split; [done|]. split; [done|].
      intros [|j'] st'' Hlt Hst''.
      * simpl in Hst''. injection Hst'' as <-. by rewrite Nat.add_0_r.
      * replace (i + S j')%nat with (S i + j')%nat by lia.
        apply (Hearlier j' st''); [lia | done].
Qed.

Lemma cascade_shape (searches : nat → SearchService) (book : Book)
    (sts : list Strategy) (i : nat) (r : Result) :
  cascade searches book i sts = Some r →
  r = unmatched book ∨ ∃ doc, r = docToResult doc book.
Proof.
  revert i. induction sts as [|st sts IH]; intros i; simpl.
  - intros [= <-]. by left.
  - destruct (tryStrategy (searches i) book st) as [doc| |]; [| |done].
    + intros [= <-]. right. by exists doc.
    + apply IH.
Qed.

Lemma len_app (s t : string) : JS.len (s +:+ t) = (JS.len s + JS.len t)%nat.
Proof.
  induction s as [|c s IH]; [done|]. rewrite app_cons. simpl. rewrite IH. lia.
Qed.

Lemma len_rev (s : string) : JS.len (String.rev s) = JS.len s.
Proof.
  induction s as [|c s IH]; [done|]. rewrite rev_cons, len_app, IH. simpl. lia.
Qed.

Lemma len_trimStart (s : string) : (JS.len (JS.trimStart s) ≤ JS.len s)%nat.
Proof.
  induction s as [|c s IH]; [done|]. simpl.
  destruct (JS.is_space c); simpl; lia.
Qed.

Lemma len_trim (s : string) : (JS.len (JS.trim s) ≤ JS.len s)%nat.
Proof.
  unfold JS.trim. rewrite len_rev.
  etrans; [apply len_trimStart|]. rewrite len_rev. apply len_trimStart.
Qed.

Lemma len_before_sep (sep : string → bool) (s : string) :
  (JS.len (JS.before_sep sep s) ≤ JS.len s)%nat.
Proof.
  induction s as [|c s IH]; simpl.
  - by destruct (sep "").
  - destruct (sep (String c s)); simpl; lia.
Qed.

Lemma len_withoutSubtitle (t : string) :
  (JS.len (withoutSubtitle t) ≤ JS.len t)%nat.
Proof.
  unfold withoutSubtitle. etrans; [apply len_trim | apply len_before_sep].
Qed.

Lemma tryStrategy_short (search : SearchService) (book : Book) (st : Strategy)
    (q : string) :
  query st = Some (Some q) → (JS.len q < 2)%nat →
  tryStrategy search book st = NoMatch.
Proof.
  intros Hq Hlen. unfold tryStrategy. rewrite Hq.
  by rewrite (proj2 (Nat.ltb_lt _ _) Hlen).
Qed.

End ResolverMore.

(** X12 — [authorsMatch] accepts every name against itself, and more
    generally every candidate that has the same significant words as the
    expected name (the same name in another letter case or punctuation). *)
Theorem authorsMatch_same_words (expected candidate : string) :
  Resolver.authorsMatch (Some expected) expected = true
  ∧ (Resolver.nameWords expected = Resolver.nameWords candidate →
     Resolver.authorsMatch (Some expected) candidate = true).
Proof.
  assert (∀ c, Resolver.nameWords expected = Resolver.nameWords c →
               Resolver.authorsMatch (Some expected) c = true) as H.
  { intros c Hw. unfold Resolver.authorsMatch.
    destruct (bool_decide (expected = "") || bool_decide (expected = "Unknown")
              || bool_decide (c = "")); [done|].
    case_bool_decide; [done|]. by rewrite Hw, bool_decide_eq_true_2. }
  split; [by apply H | apply H].
Qed.

Lemma authorsMatch_same_words_witness :
  Resolver.authorsMatch (Some "KING, Stephen") "king stephen" = true.
Proof.
  apply (proj2 (authorsMatch_same_words "KING, Stephen" "king stephen")).
  reflexivity.
Defined.

(** X13 — a candidate whose title is the query title, up to letter case, is
    never taken for a knockoff; nor is a candidate without a title. *)
Theorem isSummaryKnockoff_same_title (resultTitle queryTitle : option string) :
  (JS.toLowerCase (JS.or_empty resultTitle)
   = JS.toLowerCase (JS.or_empty queryTitle) →
   Resolver.isSummaryKnockoff resultTitle queryTitle = false)
  ∧ (JS.or_empty resultTitle = "" →
     Resolver.isSummaryKnockoff resultTitle queryTitle = false).
Proof.
  unfold Resolver.isSummaryKnockoff. split.
  - intros ->. set (qt := JS.toLowerCase (JS.or_empty queryTitle)).
    unfold JS.startsWith.
    destruct (String.prefix "summary" qt); simpl.
    + destruct (String.prefix "review" qt); simpl.
      * destruct (String.prefix "analysis of" qt) eqn:Ha; simpl.
        -- by rewrite (prefix_app_l "analysis" " of" qt Ha).
        -- by destruct (String.prefix "analysis" qt).
      * destruct (String.prefix "analysis of" qt) eqn:Ha; simpl.
        -- by rewrite (prefix_app_l "analysis" " of" qt Ha).
        -- by destruct (String.prefix "analysis" qt).
    + destruct (String.prefix "review" qt); simpl.
      * destruct (String.prefix "analysis of" qt) eqn:Ha; simpl.
        -- by rewrite (prefix_app_l "analysis" " of" qt Ha).
        -- by destruct (String.prefix "analysis" qt).
      * destruct (String.prefix "analysis of" qt) eqn:Ha; simpl.
        -- by rewrite (prefix_app_l "analysis" " of" qt Ha).
        -- by destruct (String.prefix "analysis" qt).
  - intros ->. simpl. unfold JS.startsWith. simpl.
    by rewrite !andb_false_r.
Qed.

Lemma isSummaryKnockoff_same_title_witness :
  Resolver.isSummaryKnockoff (Some "ANALYSIS OF VARIANCE")
    (Some "Analysis of Variance") = false.
Proof.
  apply (proj1 (isSummaryKnockoff_same_title (Some "ANALYSIS OF VARIANCE")
                  (Some "Analysis of Variance"))).
  reflexivity.
Defined.

(** X14 — the match returned is the first one in cascade order: it comes
    from the earliest strategy that accepts anything, every earlier strategy
    having ended without a match, and within that strategy's answer it is
    the first document that passes the tests. *)
Theorem lookupOneBook_first_match (searches : nat → Resolver.SearchService)
    (book : Book) (r : Resolver.Result) :
  Resolver.lookupOneBook searches book = Some r →
  Resolver.r_matched r = Resolver.Bool true →
  ∃ i st q doc before after,
    Resolver.strategies book !! i = Some st
    ∧ Resolver.query st = Some (Some q)
    ∧ searches i (Resolver.titleField st) q = before ++ doc :: after
    ∧ Resolver.passes book st q doc = true
    ∧ (∀ d, d ∈ before → Resolver.passes book st q d = false)
    ∧ r = Resolver.docToResult doc book
    ∧ ∀ j st', (j < i)%nat → Resolver.strategies book !! j = Some st' →
        Resolver.tryStrategy (searches j) book st' = Resolver.NoMatch.
Proof.
  intros Hr Hm.
  destruct (cascade_first _ _ _ _ _ Hr Hm)
    as (i & st & doc & Hi & Ht & -> & Hearlier).
  simpl in Ht. unfold Resolver.tryStrategy in Ht.
  destruct (Resolver.query st) as [[q|]|] eqn:Hq; try done.
  destruct (JS.len q <? 2)%nat; [done|].
  destruct (List.find _ _) as [d|] eqn:Hfind; [|done].
  injection Ht as ->.
  apply find_split in Hfind as (before & after & Hsplit & Hp & Hbefore).
  exists i, st, q, doc, before, after. repeat split; done.
Qed.

Lemma lookupOneBook_first_match_witness :
  let book := {| title := Some "Dune"; author := Some "Frank Herbert";
                 confidence := Some "high"; corrected := None |} in
  let doc t a := {| Resolver.doc_title := Some t;
                    Resolver.author_name := Some [a];
                    Resolver.isbn := None; Resolver.cover_i := None;
                    Resolver.first_publish_year := None;
                    Resolver.publisher := None;
                    Resolver.number_of_pages_median := None;
                    Resolver.subject := None |} in
  let searches : nat → Resolver.SearchService :=
    λ _ _ _, [doc "Summary of Dune" "Study Notes";
              doc "Dune Messiah" "Frank Herbert"] in
  Resolver.lookupOneBook searches book
  = Some (Resolver.docToResult (doc "Dune Messiah" "Frank Herbert") book)
  ∧ ∃ i st q d before after,
      Resolver.strategies book !! i = Some st
      ∧ searches i (Resolver.titleField st) q = before ++ d :: after
      ∧ ∀ x, x ∈ before → Resolver.passes book st q x = false.
Proof.
  intros book doc searches. split; [reflexivity|].
  destruct (lookupOneBook_first_match searches book
              (Resolver.docToResult (doc "Dune Messiah" "Frank Herbert") book))
    as (i & st & q & d & before & after & Hi & _ & Hs & _ & Hb & _);
    [reflexivity | reflexivity |].
  exists i, st, q, d, before, after. repeat split; assumption.
Defined.

(** X15 — [lookupOneBook] fails (its promise rejects) exactly for a book
    without a title whose combined title-and-author search accepts nothing:
    the fourth strategy then calls [split] on the missing title. *)
Theorem lookupOneBook_rejects_iff (searches : nat → Resolver.SearchService)
    (book : Book) :
  Resolver.lookupOneBook searches book = None
  ↔ title book = None
    ∧ Resolver.tryStrategy (searches 0%nat) book
        {| Resolver.query := Some (Some (Resolver.titleAndAuthor book));
           Resolver.useAuthorFilter := true;
           Resolver.titleField := false |} = Resolver.NoMatch.
Proof.
  split.
  - intros Hnone. destruct (title book) as [t|] eqn:Ht.
    + destruct (lookupOneBook_returns searches book) as [r Hr];
        [by rewrite Ht | congruence].
    + split; [done|].
      unfold Resolver.lookupOneBook, Resolver.strategies in Hnone.
      cbn [Resolver.cascade] in Hnone.
      destruct (Resolver.tryStrategy _ _ _) eqn:Htry; [done | done |].
      by apply tryStrategy_no_throw in Htry; [|eexists].
  - intros [Ht Htry].
    unfold Resolver.lookupOneBook, Resolver.strategies.
    cbn [Resolver.cascade]. rewrite Htry, Ht. reflexivity.
Qed.

(** X16 — the handler answers with the server error exactly when the
    lookup of some book of the request fails; the results of the other books
    are then lost with it. *)
Theorem api_lookup_error_iff
    (service : nat → nat → Resolver.SearchService) (books : list Book) :
  Resolver.api_lookup service books = Resolver.ServerError
  ↔ ∃ i b, books !! i = Some b ∧ Resolver.lookupOneBook (service i) b = None.
Proof.
  unfold Resolver.api_lookup, Resolver.promise_all.
  destruct (mapM id _) as [results|] eqn:Hall.
  - split; [done|]. intros (i & b & Hb & Hnone).
    apply mapM_Some in Hall.
    destruct (Forall2_lookup_l _ _ _ i (Resolver.lookupOneBook (service i) b)
                Hall) as (r & _ & Hr).
    { by rewrite list_lookup_imap, Hb. }
    simpl in Hr. congruence.
  - split; [intros _|done].
    apply eq_None_not_Some in Hall. rewrite mapM_is_Some in Hall.
    apply not_Forall_Exists in Hall; [|apply _].
    apply Exists_exists in Hall as (p & Hp & Hnot).
    apply list_elem_of_lookup in Hp as [i Hp].
    rewrite list_lookup_imap in Hp.
    destruct (books !! i) as [b|] eqn:Hb; [|done]. injection Hp as <-.
    exists i, b. split; [done|]. simpl in Hnot.
    destruct (Resolver.lookupOneBook (service i) b); [|done].
    destruct Hnot. by eexists.
Qed.

(** X17 — for a title shorter than two characters only the combined
    title-and-author search is made: the result is its first passing
    document, or else the unmatched record; a blank title with a blank or
    unknown author is returned unmatched without any search. *)
Theorem short_title_single_search (searches : nat → Resolver.SearchService)
    (book : Book) (t : string) :
  title book = Some t → (JS.len t < 2)%nat →
  Resolver.lookupOneBook searches book
  = Some match Resolver.tryStrategy (searches 0%nat) book
                 {| Resolver.query := Some (Some (Resolver.titleAndAuthor book));
                    Resolver.useAuthorFilter := true;
                    Resolver.titleField := false |} with
         | Resolver.Accept doc => Resolver.docToResult doc book
         | _ => Resolver.unmatched book
         end
  ∧ (t = "" → author book = Some "" ∨ author book = Some "Unknown" →
     Resolver.lookupOneBook searches book = Some (Resolver.unmatched book)).
Proof.
  intros Ht Hlen.
  assert (Resolver.lookupOneBook searches book
          = Some match Resolver.tryStrategy (searches 0%nat) book
                 {| Resolver.query := Some (Some (Resolver.titleAndAuthor book));
                    Resolver.useAuthorFilter := true;
                    Resolver.titleField := false |} with
                 | Resolver.Accept doc => Resolver.docToResult doc book
                 | _ => Resolver.unmatched book
                 end) as Heq.
  { unfold Resolver.lookupOneBook, Resolver.strategies.
    cbn [Resolver.cascade].
    destruct (Resolver.tryStrategy (searches 0%nat) _ _) eqn:Htry; [done | |].
    - rewrite Ht. simpl.
      assert (JS.len (Resolver.withoutSubtitle t) < 2)%nat as Hsub.
      { pose proof (len_withoutSubtitle t). lia. }
      repeat match goal with
             | |- context [Resolver.tryStrategy ?s book ?st] =>
                 rewrite (tryStrategy_short s book st _ eq_refl) by assumption
             end.
      done.
    - by apply tryStrategy_no_throw in Htry; [|eexists]. }
  split; [done|].
  intros -> Ha. rewrite Heq.
  rewrite (tryStrategy_short _ book _ (Resolver.titleAndAuthor book));
    [done | done |].
  unfold Resolver.titleAndAuthor. rewrite Ht.
  destruct Ha as [-> | ->]; simpl; lia.
Qed.

Lemma short_title_single_search_witness :
  Resolver.lookupOneBook (λ _ _ _, [])
    {| title := Some ""; author := Some ""; confidence := None;
       corrected := None |}
  = Some (Resolver.unmatched
            {| title := Some ""; author := Some ""; confidence := None;
               corrected := None |}).
Proof.
  apply (proj2 (short_title_single_search (λ _ _ _, [])
                  {| title := Some ""; author := Some ""; confidence := None;
                     corrected := None |} "" eq_refl ltac:(simpl; lia)));
    [reflexivity | left; reflexivity].
Defined.

(** X18 — the ISBN-13 of an enriched record is the first entry of the
    document's ISBN list that is 13 characters long, and the empty string
    when there is none; likewise the ISBN-10 with 10 characters. *)
Theorem docToResult_isbn (doc : Resolver.Doc) (book : Book) :
  let isbns := default [] (Resolver.isbn doc) in
  let first_of n s :=
    (s = "" ∧ ∀ i, i ∈ isbns → JS.len i ≠ n)
    ∨ (JS.len s = n ∧ ∃ l1 l2, isbns = l1 ++ s :: l2
                               ∧ ∀ i, i ∈ l1 → JS.len i ≠ n) in
  ∃ s13 s10,
    Resolver.r_isbn13 (Resolver.docToResult doc book) = Resolver.Str s13
    ∧ Resolver.r_isbn10 (Resolver.docToResult doc book) = Resolver.Str s10
    ∧ first_of 13%nat s13 ∧ first_of 10%nat s10.
Proof.
  intros isbns first_of.
  assert (∀ n, first_of n
            (default "" (List.find (Resolver.has_length n) isbns))) as H.
  { intros n. unfold first_of.
    destruct (List.find _ _) as [s|] eqn:Hfind; simpl.
    - right. apply find_split in Hfind as (l1 & l2 & Hsplit & Hs & Hl1).
      unfold Resolver.has_length in *. apply Nat.eqb_eq in Hs.
      split; [done|]. exists l1, l2. split; [done|].
      intros i Hi. by apply Nat.eqb_neq, Hl1.
    - left. split; [done|]. intros i Hi.
      apply Nat.eqb_neq. by apply (find_none_all _ _ Hfind). }
  eexists _, _. split; [done|]. split; [done|]. split; apply H.
Qed.

(** X19 — a lookup never loses the title or the author: for a book with a
    non-empty title and author every result, matched or not, has a non-empty
    title and author; and the confidence and corrected fields are carried
    over exactly when the result is unmatched. *)
Theorem lookupOneBook_keeps_title_author
    (searches : nat → Resolver.SearchService) (book : Book)
    (r : Resolver.Result) (t a : string) :
  title book = Some t → t ≠ "" → author book = Some a → a ≠ "" →
  Resolver.lookupOneBook searches book = Some r →
  (∃ t' a', Resolver.r_title r = Resolver.Str t' ∧ t' ≠ ""
            ∧ Resolver.r_author r = Resolver.Str a' ∧ a' ≠ "")
  ∧ ((Resolver.r_matched r = Resolver.Bool false
      ∧ Resolver.r_confidence r = Resolver.of_string (confidence book)
      ∧ Resolver.r_corrected r = Resolver.of_bool (corrected book))
     ∨ (Resolver.r_matched r = Resolver.Bool true
        ∧ Resolver.r_confidence r = Resolver.Undefined
        ∧ Resolver.r_corrected r = Resolver.Undefined)).
Proof.
  intros Ht Hte Ha Hae Hr.
  apply cascade_shape in Hr as [->|[doc ->]].
  - split; [|by left]. exists t, a. simpl. by rewrite Ht, Ha.
  - split; [|by right]. simpl. rewrite Ht, Ha.
    destruct (Resolver.doc_title doc) as [[|c s]|] eqn:Hd; simpl;
      case_bool_decide as Hj; eauto 10.
Qed.

Lemma lookupOneBook_keeps_title_author_witness :
  let book := {| title := Some "Dune"; author := Some "Frank Herbert";
                 confidence := Some "high"; corrected := None |} in
  ∃ t' a', (∀ r, Resolver.lookupOneBook (λ _ _ _, []) book = Some r →
                 Resolver.r_title r = Resolver.Str t'
                 ∧ Resolver.r_author r = Resolver.Str a')
           ∧ t' ≠ "" ∧ a' ≠ "".
Proof.
  intros book.
  destruct (lookupOneBook_keeps_title_author (λ _ _ _, []) book
              (Resolver.unmatched book) "Dune" "Frank Herbert")
    as [(t' & a' & Ht & Hte & Ha & Hae) _];
    [reflexivity | discriminate | reflexivity | discriminate | reflexivity |].
  exists t', a'. split; [|by split].
  intros r [= <-]. by split.
Defined.

(** ** Model replies and the scan pipeline *)
Section GptFacts.
Import Gpt.

Lemma strip_prefix_app (u s : string) : strip_prefix u (u +:+ s) = Some s.
Proof.
  induction u as [|c u IH]; [done|]. rewrite app_cons. cbn [strip_prefix].
  by rewrite decide_True.
Qed.

Lemma prefix_app (u s : string) : String.prefix u (u +:+ s) = true.
Proof.
  induction u as [|c u IH]; [by destruct s|]. rewrite app_cons. simpl.
  by destruct (ascii_dec c c).
Qed.

Lemma strip_suffix_app (v s : string) : strip_suffix v (s +:+ v) = Some s.
Proof.
  unfold strip_suffix. rewrite rev_app_distr_s, strip_prefix_app. simpl.
  by rewrite rev_involutive_s.
Qed.

Lemma trimStart_spaces (ws s : string) :
  Text.every JS.is_space ws = true → JS.trimStart (ws +:+ s) = JS.trimStart s.
Proof.
  induction ws as [|c ws IH]; [done|]. rewrite app_cons.
  cbn [Text.every JS.trimStart].
  intros [Hc Hws]%andb_prop. rewrite Hc. by apply IH.
Qed.

Lemma trimStart_cons (c : ascii) (s : string) :
  JS.is_space c = false → JS.trimStart (String c s) = String c s.
Proof. intros Hc. simpl. by rewrite Hc. Qed.

(** [trim] removes the white space around a text that starts and ends
    with other characters, and nothing else. *)
Lemma trim_pad (ws1 ws2 s : string) (c d : ascii) :
  JS.is_space c = false → JS.is_space d = false →
  Text.every JS.is_space ws1 = true → Text.every JS.is_space ws2 = true →
  JS.trim (ws1 +:+ String c (s +:+ String d "") +:+ ws2)
  = String c (s +:+ String d "").
Proof.
  intros Hc Hd H1 H2. unfold JS.trim.
  rewrite trimStart_spaces by done. rewrite app_cons, trimStart_cons by done.
  rewrite <-app_cons, rev_app_distr_s, rev_cons, rev_app_distr_s.
  change (String.rev (String d "")) with (String d "").
  rewrite app_cons. change ("" +:+ String.rev s) with (String.rev s).
  rewrite app_cons. rewrite trimStart_spaces by (by rewrite every_rev).
  rewrite trimStart_cons by done.
  rewrite rev_cons, rev_app_distr_s, rev_involutive_s.
  change (String.rev (String c "")) with (String c "").
  by rewrite app_cons.
Qed.

End GptFacts.

(** X20 — a reply wrapped in a code fence is unwrapped exactly: whatever the
    payload, a fence opened with or without the word json and closed on its
    own line, with any white space around it, gives back the payload; and a
    reply that does not start with a fence is passed on trimmed and
    otherwise untouched. *)
Theorem payload_unwraps_fence (ws1 ws2 opening p raw : string) :
  Text.every JS.is_space ws1 = true → Text.every JS.is_space ws2 = true →
  opening = "```json" +:+ Gpt.newline ∨ opening = "```" +:+ Gpt.newline →
  Gpt.payload (ws1 +:+ (opening +:+ p +:+ Gpt.newline +:+ "```") +:+ ws2) = p
  ∧ (JS.startsWith (JS.trim raw) "```" = false →
     Gpt.payload raw = JS.trim raw).
Proof.
  intros H1 H2 Hopen. split.
  - unfold Gpt.payload.
    assert (∃ rest, opening = "```" +:+ rest
                    ∧ Gpt.skip Gpt.newline (Gpt.skip "json"
                        (rest +:+ p +:+ Gpt.newline +:+ "```"))
                      = p +:+ Gpt.newline +:+ "```") as (rest & -> & Hskip).
    { destruct Hopen as [-> | ->].
      - exists ("json" +:+ Gpt.newline). split; [done|].
        unfold Gpt.skip. rewrite app_assoc_s, strip_prefix_app. simpl.
        reflexivity.
      - exists Gpt.newline. split; [done|].
        unfold Gpt.skip. simpl. reflexivity. }
    assert (("```" +:+ rest) +:+ p +:+ Gpt.newline +:+ "```"
            = String "`" (("``" +:+ rest +:+ p +:+ Gpt.newline +:+ "``")
                          +:+ String "`" "")) as Hshape.
    { rewrite !app_assoc_s. reflexivity. }
    rewrite Hshape, trim_pad by done. rewrite <-Hshape.
    assert (JS.startsWith (("```" +:+ rest) +:+ p +:+ Gpt.newline +:+ "```")
              Gpt.fence = true) as ->.
    { rewrite app_assoc_s. apply prefix_app. }
    unfold Gpt.strip_open. rewrite app_assoc_s.
    change Gpt.fence with "```". rewrite strip_prefix_app, Hskip.
    unfold Gpt.strip_close.
    change (p +:+ Gpt.newline +:+ "```")
      with (p +:+ (Gpt.newline +:+ Gpt.fence)).
    by rewrite strip_suffix_app.
  - intros Hs. unfold Gpt.payload. change Gpt.fence with "```". by rewrite Hs.
Qed.

Lemma payload_unwraps_fence_witness :
  Gpt.payload (" " +:+ (("```json" +:+ Gpt.newline) +:+ "[]"
                        +:+ Gpt.newline +:+ "```") +:+ Gpt.newline)
  = "[]".
Proof.
  apply (proj1 (payload_unwraps_fence " " Gpt.newline
                  ("```json" +:+ Gpt.newline) "[]" ""
                  eq_refl eq_refl (or_introl eq_refl))).
Defined.




(** ** The browser side *)
Section ClientFacts.
Import Client.

Lemma join_cons2 (sep x y : string) (l : list string) :
  JS.join sep (x :: y :: l) = x +:+ sep +:+ JS.join sep (y :: l).
Proof. reflexivity. Qed.

Lemma replace_quotes_cons (r : string) (c : ascii) (s : string) :
  replace_quotes r (String c s)
  = if decide (c = dquote) then r +:+ replace_quotes r s
    else String c (replace_quotes r s).
Proof. reflexivity. Qed.

(** The doubled text of a cell, closed by a quote that no further quote
    follows, determines the cell and what comes after it. *)
Lemma doubled_inj (a b ra rb : string) :
  (∀ r, ra ≠ String dquote r) → (∀ r, rb ≠ String dquote r) →
  replace_quotes doubled a +:+ String dquote ra
  = replace_quotes doubled b +:+ String dquote rb →
  a = b ∧ ra = rb.
Proof.
  intros Hra Hrb. revert b.
  induction a as [|c a IH]; intros [|d b]; rewrite ?replace_quotes_cons.
  - intros [= ->]. done.
  - destruct (decide (d = dquote)) as [->|Hd].
    + intros [= ->]. by destruct (Hra _ eq_refl).
    + intros [= <-]. done.
  - destruct (decide (c = dquote)) as [->|Hc].
    + intros [= <-]. by destruct (Hrb _ eq_refl).
    + intros [= -> _]. done.
  - destruct (decide (c = dquote)) as [->|Hc],
      (decide (d = dquote)) as [->|Hd].
    + intros [= Heq]. destruct (IH _ Heq) as [-> ->]. done.
    + intros [= <-]. done.
    + intros [= ->]. done.
    + intros [= -> Heq]. destruct (IH _ Heq) as [-> ->]. done.
Qed.

Lemma csv_cell_app (a t : string) :
  csv_cell a +:+ t
  = String dquote (replace_quotes doubled a +:+ String dquote t).
Proof. unfold csv_cell. by rewrite app_cons, app_assoc_s. Qed.

Lemma csv_cell_inj_gen (a b ta tb : string) :
  (∀ r, ta ≠ String dquote r) → (∀ r, tb ≠ String dquote r) →
  csv_cell a +:+ ta = csv_cell b +:+ tb → a = b ∧ ta = tb.
Proof.
  intros Ha Hb. rewrite !csv_cell_app. intros [= Heq].
  by apply doubled_inj.
Qed.

Lemma csv_row_cons (c : string) (r : list string) :
  csv_row (c :: r)
  = csv_cell c +:+ (if r is [] then "" else "," +:+ csv_row r).
Proof.
  unfold csv_row. destruct r as [|c' r]; simpl.
  - by rewrite app_nil_r_s.
  - done.
Qed.

Lemma csv_row_inj_gen (r1 r2 : list string) (t1 t2 : string) :
  r1 ≠ [] → r2 ≠ [] →
  t1 = "" ∨ (∃ t, t1 = Gpt.newline +:+ t) →
  t2 = "" ∨ (∃ t, t2 = Gpt.newline +:+ t) →
  csv_row r1 +:+ t1 = csv_row r2 +:+ t2 → r1 = r2 ∧ t1 = t2.
Proof.
  intros H1 H2 Ht1 Ht2. revert r2 H1 H2.
  assert (∀ t r, (t = "" ∨ (∃ t', t = Gpt.newline +:+ t')) →
                 t ≠ String dquote r) as Htail.
  { intros t r [->|[t' ->]]; done. }
  induction r1 as [|c1 r1 IH]; intros [|c2 r2] H1 H2; try done.
  rewrite !csv_row_cons, !app_assoc_s.
  intros [-> Hrest]%csv_cell_inj_gen.
  - destruct r1 as [|c1' r1], r2 as [|c2' r2].
    + by simplify_eq/=.
    + destruct Ht1 as [->|[t ->]]; done.
    + destruct Ht2 as [->|[t ->]]; done.
    + rewrite !app_assoc_s in Hrest. injection Hrest as Hrest.
      destruct (IH (c2' :: r2)) as [-> ->]; done.
  - intros r. destruct r1; [by apply Htail | done].
  - intros r. destruct r2; [by apply Htail | done].
Qed.

Lemma csv_text_cons (r : list string) (T : list (list string)) :
  csv_text (r :: T)
  = csv_row r +:+ (if T is [] then "" else Gpt.newline +:+ csv_text T).
Proof.
  unfold csv_text. destruct T as [|r' T]; simpl.
  - by rewrite app_nil_r_s.
  - done.
Qed.

Lemma csv_text_inj (T1 T2 : list (list string)) :
  Forall (λ r, r ≠ []) T1 → Forall (λ r, r ≠ []) T2 →
  csv_text T1 = csv_text T2 → T1 = T2.
Proof.
  intros H1. revert T2.
  induction H1 as [|r1 T1 Hr1 H1 IH]; intros T2 H2.
  - destruct H2 as [|[|c r2] T2 Hr2 _]; [done | done |].
    rewrite csv_text_cons, csv_row_cons. done.
  - destruct H2 as [|r2 T2 Hr2 H2].
    + destruct r1 as [|c r1]; [done|].
      rewrite csv_text_cons, csv_row_cons. done.
    + rewrite !csv_text_cons. intros Heq.
      apply csv_row_inj_gen in Heq as [-> Htail]; try done.
      * destruct T1 as [|r1' T1], T2 as [|r2' T2]; try done.
        injection Htail as Htail. f_equal. by apply IH.
      * destruct T1; [by left | right; eauto].
      * destruct T2; [by left | right; eauto].
Qed.

Lemma every_replace_quotes (r s : string) :
  Text.every not_quote r = true →
  Text.every not_quote (replace_quotes r s) = true.
Proof.
  intros Hr. induction s as [|c s IH]; [done|].
  rewrite replace_quotes_cons. destruct (decide (c = dquote)) as [->|Hc].
  - by rewrite every_app, Hr.
  - simpl. unfold not_quote at 1. by rewrite bool_decide_eq_false_2.
Qed.

Lemma replace_quotes_none (r s : string) :
  Text.every not_quote s = true → replace_quotes r s = s.
Proof.
  induction s as [|c s IH]; [done|]. simpl.
  intros [Hc Hs]%andb_prop. unfold not_quote in Hc.
  apply negb_true_iff, bool_decide_eq_false in Hc.
  by rewrite decide_False, IH.
Qed.

End ClientFacts.

(** X23 — [esc] leaves no double quote in its result, so that the value
    cannot end the attribute it is written into, and it changes nothing in
    a text that has none. *)
Theorem esc_no_quote (s : option string) :
  Text.every Client.not_quote (Client.esc s) = true
  ∧ (Text.every Client.not_quote (JS.or_empty s) = true →
     Client.esc s = JS.or_empty s).
Proof.
  split.
  - by apply every_replace_quotes.
  - apply replace_quotes_none.
Qed.

Lemma esc_no_quote_witness : Client.esc (Some "Dune") = "Dune".
Proof. apply (proj2 (esc_no_quote (Some "Dune"))). reflexivity. Defined.

(** X24 — the CSV text determines the table it was written from: two tables
    without empty rows that give the same text are equal, whatever quotes,
    commas and line feeds their cells hold.  In particular the export of
    two lists of books is the same text only if the books agree on every
    exported column. *)
Theorem csv_export_lossless (T1 T2 : list (list string))
    (bs1 bs2 : list Resolver.Result) :
  (Forall (λ r, r ≠ []) T1 → Forall (λ r, r ≠ []) T2 →
   Client.csv_text T1 = Client.csv_text T2 → T1 = T2)
  ∧ (Client.csvContent bs1 = Client.csvContent bs2 →
     Client.export_row <$> bs1 = Client.export_row <$> bs2).
Proof.
  split; [apply csv_text_inj|].
  unfold Client.csvContent. intros Heq.
  apply csv_text_inj in Heq; [by simplify_eq|..];
    (apply Forall_cons; split; [done|]; apply Forall_fmap, Forall_true; done).
Qed.

Lemma csv_export_lossless_witness :
  [["Dune, a novel"; "Frank Herbert"]] = [["Dune, a novel"; "Frank Herbert"]].
Proof.
  apply (proj1 (csv_export_lossless
                  [["Dune, a novel"; "Frank Herbert"]]
                  [["Dune, a novel"; "Frank Herbert"]] [] [])).
  - by repeat constructor.
  - by repeat constructor.
  - reflexivity.
Defined.
